(** * Meeting cost calculator: cost policy, annotation merge and cron driver

    A shallow embedding of [src/cost_calculator.py], [src/calendar_service.py],
    [src/main.py] and [src/user_service.py], and the properties of the written specification proved
    (or refuted) over it.

    Conventions of the embedding.
    - A Python [str] is a list of Unicode code points ([str := list N]).
      [lit] turns an ASCII literal into such a list; the few non-ASCII
      characters of the source are named constants.  [str.lower] is the
      mapping of the ASCII letters, which is all of [str.lower] on ASCII
      text; statements whose truth depends on the lower-casing of other
      characters assume ASCII text.
    - A Python [float] is a binary64 number, held as the rational it denotes
      ([Q]); every arithmetic operation of the source rounds its exact result
      to the nearest binary64 number, a tie going to the even significand
      ([binary64]).  [round(x, 0)] is Python 3's round-half-to-even.  The
      infinities are not modelled: a product of [2 ^ 1024] or more, where
      [int()] raises [OverflowError], is outside the embedding.
    - A Python [int] is a [Z].
    - A [dict] with optional keys is a record with [option] fields; [None]
      stands for a missing key (or a Python [None] value, which the source
      never distinguishes from a missing key in the fields modelled here).
    - A raised exception is the left injection of a sum. *)

From Stdlib Require Import Strings.String Strings.Ascii.
From Stdlib Require Import List ZArith NArith QArith Qround Qminmax Qabs Qpower.
From Stdlib Require Import Lqa Lia Bool Permutation.
Import ListNotations.

Set Implicit Arguments.

(* ================================================================= *)
(** ** Python strings *)

Module Py.

Definition char := N.
Definition str := list char.

(** An ASCII literal of the source as a list of code points. *)
Definition lit (s : String.string) : str :=
  map Ascii.N_of_ascii (String.list_ascii_of_string s).
Arguments lit s%_string.

Definition NEWLINE : char := 10%N.
Definition BACKSLASH : char := 92%N.

Fixpoint str_eqb (a b : str) : bool :=
  match a, b with
  | [], [] => true
  | x :: a', y :: b' => N.eqb x y && str_eqb a' b'
  | _, _ => false
  end.

(** [s.isascii()]: every code point is below 128. *)
Definition is_ascii (s : str) : bool := forallb (fun c => N.ltb c 128) s.

(** [c.isupper()] on an ASCII character: one of A-Z. *)
Definition is_upper (c : char) : bool := N.leb 65 c && N.leb c 90.

(** [c.lower()] on one ASCII character. *)
Definition lower_char (c : char) : char :=
  if is_upper c then (c + 32)%N else c.

(** [s.lower()] on ASCII text.  For other characters Python consults the
    Unicode database, which is not modelled; the only characters beyond
    ASCII whose lower-case form holds an ASCII letter are U+212A (to [k]) and
    U+0130 (to [i] and a combining dot), so the comparisons of the source
    with the words [accepted], [tentative], [needsaction] and [full sync]
    come out as they do here for every text. *)
Definition lower (s : str) : str := map lower_char s.

(** [s.startswith(p)]: the rest of [s] after [p], if [p] is a prefix. *)
Fixpoint strip_prefix (p s : str) : option str :=
  match p with
  | [] => Some s
  | x :: p' =>
      match s with
      | [] => None
      | y :: s' => if N.eqb x y then strip_prefix p' s' else None
      end
  end.

Definition startswith (s p : str) : bool :=
  match strip_prefix p s with Some _ => true | None => false end.

(** [s.endswith(suf)] *)
Definition endswith (s suf : str) : bool :=
  (length suf <=? length s)%nat
  && str_eqb (skipn (length s - length suf) s) suf.

(** [sub in s] for strings. *)
Fixpoint contains (sub s : str) : bool :=
  startswith s sub
  || match s with
     | [] => false
     | _ :: s' => contains sub s'
     end.

(** [c.isspace()]: the Unicode white space characters. *)
Definition isspace (c : char) : bool :=
  (N.leb 9 c && N.leb c 13) || (N.leb 28 c && N.leb c 32)
  || N.eqb c 133 || N.eqb c 160 || N.eqb c 5760
  || (N.leb 8192 c && N.leb c 8202)
  || N.eqb c 8232 || N.eqb c 8233 || N.eqb c 8239 || N.eqb c 8287
  || N.eqb c 12288.

(** Truth value of [s.strip()]: some character of [s] is not white space. *)
Definition strip_nonempty (s : str) : bool := existsb (fun c => negb (isspace c)) s.

(** Truth value of a string: non-empty. *)
Definition truthy (s : str) : bool :=
  match s with [] => false | _ => true end.

(** [int(round(x, 0))]: Python 3 rounds to the nearest integer, a tie going
    to the even neighbour. *)
Definition py_round (x : Q) : Z :=
  let f := Qfloor x in
  match (x - inject_Z f ?= 1 # 2)%Q with
  | Lt => f
  | Gt => (f + 1)%Z
  | Eq => if Z.even f then f else (f + 1)%Z
  end.

(** *** Floats

    IEEE 754 binary64: 53 bits of significand, the least exponent of a unit
    in the last place -1074. *)

(** The integer [k] with [2 ^ k <= |x| < 2 ^ (k + 1)], for [x] other than 0. *)
Definition ilog2 (x : Q) : Z :=
  let p := Z.abs (Qnum x) in
  let q := Zpos (Qden x) in
  let k := (Z.log2 p - Z.log2 q)%Z in
  if (q * 2 ^ Z.log2 p <=? p * 2 ^ Z.log2 q)%Z then k else (k - 1)%Z.

(** The exponent of the unit in the last place of the binary64 numbers of
    the magnitude of [x]; the subnormal numbers share the least one. *)
Definition ulp_exponent (x : Q) : Z := Z.max (ilog2 x - 52) (-1074).

(** The binary64 number nearest to [x], the one with the even significand on
    a tie: what a float operation returns when its exact result is [x]
    (lemmas [binary64_finite], [binary64_nearest], [binary64_ties_to_even]
    and [binary64_exact] below). *)
Definition binary64 (x : Q) : Q :=
  match Qnum x with
  | Z0 => 0
  | _ =>
      let e := ulp_exponent x in
      Qred (inject_Z (py_round (x / 2 ^ e)) * 2 ^ e)
  end.

(** [x * y] and [x / y] on floats. *)
Definition fmul (x y : Q) : Q := binary64 (x * y).
Definition fdiv (x y : Q) : Q := binary64 (x / y).

(** [float(n)], the conversion an [int] operand of a float operation gets. *)
Definition float_of_int (n : Z) : Q := binary64 (inject_Z n).

(** [a / b] on ints: the quotient, correctly rounded. *)
Definition truediv (a b : Z) : Q := binary64 (inject_Z a / inject_Z b).


End Py.
Import Py.

(* ================================================================= *)
(** ** config.py *)

Record Config := {
  domain : str;
  default_rate : Q;
  cost_tag : str;
  internal_only : bool;
  max_users : Z;
  window_days : Z
}.

(** The configuration when no environment variable is set. *)
Definition default_config : Config := {|
  domain := lit "hginsights.com";
  default_rate := 125%Q;
  cost_tag := lit "[[MEETING_COST]]";
  internal_only := true;
  max_users := 10000;
  window_days := 35
|}.

(* ================================================================= *)
(** ** cost_calculator.py *)

Module CostCalculator.

(** One entry of [event["attendees"]]. *)
Record Attendee := {
  email : option str;
  responseStatus : option str
}.

(** [event["start"]] and [event["end"]].  [dateTime] holds the instant the
    ISO-8601 string denotes ([datetime.fromisoformat]), in microseconds since
    the epoch; it is [None] when the key is missing or the string is empty,
    which is what the source's [not start_time] tests.  [date] is the
    date-only marker of an all-day event; the source never reads it. *)
Record EventTime := {
  dateTime : option Z;
  date : option str
}.

Record Event := {
  id : option str;
  start : EventTime;
  end_ : EventTime;
  attendees : list Attendee;
  description : option str
}.

(** The dict returned by [compute_meeting_cost]: a skip result carries three
    keys, a qualifying result six. *)
Record CostInfo := {
  invited_cost : Z;
  effective_cost : Z;
  invited_count : option Z;
  effective_count : option Z;
  hours : option Q;
  skip_reason : option str
}.

Definition skip (reason : String.string) : CostInfo := {|
  invited_cost := -1;
  effective_cost := -1;
  invited_count := None;
  effective_count := None;
  hours := None;
  skip_reason := Some (lit reason)
|}.
Arguments skip reason%_string.

Section WithConfig.

Variable config : Config.

(** [internal_email] *)
Definition internal_email (email : str) : bool :=
  endswith (lower email) (lit "@" ++ domain config).

(** [timedelta.total_seconds()] of a difference of [microseconds]: the
    int quotient [microseconds / 10**6]. *)
Definition total_seconds (microseconds : Z) : Q := truediv microseconds 1000000.

(** [event_duration_hours] *)
Definition event_duration_hours (event : Event) : Q :=
  match dateTime (start event), dateTime (end_ event) with
  | Some start_dt, Some end_dt =>
      let duration_seconds := Qmax 0 (total_seconds (end_dt - start_dt)) in
      fdiv duration_seconds 3600
  | _, _ => 0%Q
  end.

(** [a.get("email")] is truthy. *)
Definition has_email (a : Attendee) : bool :=
  match email a with Some e => truthy e | None => false end.

(** [a["email"]] of an attendee that passed [has_email]. *)
Definition email_of (a : Attendee) : str :=
  match email a with Some e => e | None => [] end.

(** The loop body of lines 68-71: the response, lower-cased, is one of
    accepted, tentative, needsaction. *)
Definition is_effective (attendee : Attendee) : bool :=
  let response :=
    lower (match responseStatus attendee with
           | Some r => r
           | None => lit "needsAction"
           end) in
  existsb (str_eqb response)
          [lit "accepted"; lit "tentative"; lit "needsaction"].

(** The three lists [compute_meeting_cost] builds: the attendees with an
    e-mail address (line 40), the internal ones among them (line 48) and the
    internal ones who did not decline (lines 67-71). *)
Definition listed_attendees (event : Event) : list Attendee :=
  filter has_email (attendees event).

Definition internal_attendees (event : Event) : list Attendee :=
  filter (fun a => internal_email (email_of a)) (listed_attendees event).

Definition effective_attendees (event : Event) : list Attendee :=
  filter is_effective (internal_attendees event).

(** [hourly_rate] after the default of lines 37-38: a float. *)
Definition rate_used (hourly_rate : option Q) : Q :=
  match hourly_rate with Some r => r | None => default_rate config end.

(** [compute_meeting_cost] *)
Definition compute_meeting_cost (event : Event) (hourly_rate : option Q)
  : CostInfo :=
  let hourly_rate := rate_used hourly_rate in
  let attendees := listed_attendees event in
  let hours := event_duration_hours event in
  if Qle_bool hours 0%Q then skip "no_duration" else
  let internal_attendees := internal_attendees event in
  if internal_only config
     && negb (length internal_attendees =? length attendees)%nat
  then skip "mixed_meeting" else
  if (length internal_attendees =? 0)%nat then skip "no_internal_attendees" else
  if (length internal_attendees =? 1)%nat then skip "solo_meeting" else
  let invited_cost :=
    py_round (fmul (fmul hours (float_of_int (Z.of_nat (length internal_attendees))))
                   hourly_rate) in
  let effective_attendees := effective_attendees event in
  if (length effective_attendees =? 0)%nat then skip "all_declined" else
  if (length effective_attendees =? 1)%nat then skip "effective_solo_meeting" else
  let effective_cost :=
    py_round (fmul (fmul hours (float_of_int (Z.of_nat (length effective_attendees))))
                   hourly_rate) in
  {| invited_cost := invited_cost;
     effective_cost := effective_cost;
     invited_count := Some (Z.of_nat (length internal_attendees));
     effective_count := Some (Z.of_nat (length effective_attendees));
     hours := Some hours;
     skip_reason := None |}.

(** [compute_meeting_cost_legacy] *)
Definition compute_meeting_cost_legacy (event : Event) (hourly_rate : option Q)
  : Z :=
  let result := compute_meeting_cost event hourly_rate in
  if (effective_cost result =? -1)%Z then (-1)%Z else effective_cost result.

End WithConfig.

End CostCalculator.
Import CostCalculator.

(* ================================================================= *)
(** ** Exceptions and the upstream Calendar API *)

Module Upstream.

(** The exceptions the modelled code can see.  [UpstreamError] is whatever
    the Google client raises from [execute()] (HTTP errors, refresh errors,
    time-outs), known to the code only through [str(e)]. *)
Inductive Exn :=
| UpstreamError (message : str)
| KeyError (key : str)
| TypeError (message : str).

(** [str(e)] *)
Definition exn_str (e : Exn) : str :=
  match e with
  | UpstreamError m => m
  | KeyError k => lit "'" ++ k ++ lit "'"
  | TypeError m => m
  end.

(** The two requests [list_changed_events] builds. *)
Inductive ListRequest :=
| Incremental (syncToken : str)
    (* list(calendarId, syncToken=..., maxResults=2500, fields=...) *)
| Windowed (days : Z).
    (* list(calendarId, singleEvents=True, showDeleted=False,
            timeMin=now-days, timeMax=now+days, maxResults=2500, fields=...) *)

(** What the upstream answers to a request and to the [list_next] requests
    that follow it: [execute()] either raises or returns a page, and [next]
    is the answer to the request for the page after it. *)
Inductive Listing :=
| Raises (e : Exn)
| Response (items : list Event) (nextPageToken nextSyncToken : option str)
           (next : Listing).

(** The body and the request of [events().patch]. *)
Record PatchBody := {
  body_description : str;
  meetingCost : str;
  invitedCost : str;
  effectiveCost : str
}.

Record PatchRequest := {
  calendarId : str;
  eventId : str;
  body : PatchBody;
  sendNotifications : bool
}.

(** The Calendar resource of one user ([auth.calendar_service(email)]). *)
Record Calendar := {
  events_list : str -> ListRequest -> Listing;
  events_patch : PatchRequest -> option Exn   (* [Some e]: execute() raises *)
}.

End Upstream.
Import Upstream.

(* ================================================================= *)
(** ** Regular expressions: the fragment of [re] the source uses *)

Module Re.

Inductive regex :=
| Lit (s : str)            (* re.escape(s): the text itself *)
| AnyLazy                  (* .*? under re.DOTALL *)
| Class (cs : list char)   (* [...] *)
| Eos                      (* $ without re.MULTILINE *)
| Seq (r1 r2 : regex)
| Alt (r1 r2 : regex)      (* r1|r2 *)
| Look (r : regex)         (* (?=r) *)
| NegLook (r : regex).     (* (?!r) *)

Section Matcher.

Variable A : Type.

(** [.*?]: the continuation is tried on the shortest extension first. *)
Fixpoint lazy_any (k : str -> option A) (s : str) : option A :=
  match k s with
  | Some a => Some a
  | None => match s with
            | [] => None
            | _ :: s' => lazy_any k s'
            end
  end.

End Matcher.

(** Backtracking matcher: [run r s k] matches [r] at the head of [s] and
    hands the rest of the input to [k]; the first success in Python's order
    of alternatives wins.  Every construct of the fragment looks only at the
    text from the current position on. *)
Fixpoint run (r : regex) (A : Type) (s : str) (k : str -> option A)
  : option A :=
  match r with
  | Lit l => match strip_prefix l s with
             | Some s' => k s'
             | None => None
             end
  | AnyLazy => lazy_any k s
  | Class cs => match s with
                | c :: s' => if existsb (N.eqb c) cs then k s' else None
                | [] => None
                end
  | Eos => match s with
           | [] => k s
           | [c] => if N.eqb c NEWLINE then k s else None
           | _ => None
           end
  | Seq r1 r2 => run r1 s (fun s' => run r2 s' k)
  | Alt r1 r2 => match run r1 s k with
                 | Some a => Some a
                 | None => run r2 s k
                 end
  | Look r' => match run r' s (fun _ => Some tt) with
               | Some _ => k s
               | None => None
               end
  | NegLook r' => match run r' s (fun _ => Some tt) with
                  | Some _ => None
                  | None => k s
                  end
  end.

(** Length of the match of [r] that starts at the head of [s]. *)
Definition match_at (r : regex) (s : str) : option nat :=
  run r s (fun rest => Some (length s - length rest)%nat).

(** [re.search(r, s)] finds a match at some position. *)
Fixpoint search (r : regex) (s : str) : bool :=
  match match_at r s with
  | Some _ => true
  | None => match s with
            | [] => false
            | _ :: s' => search r s'
            end
  end.

(** [re.sub(r, repl, s)] for a pattern without empty matches and a
    replacement without backslash (Python reads the replacement as a
    template in which a backslash starts an escape; without one the text is
    inserted as it is).  The scan goes left to right; [skip] counts the
    characters of the current match still to drop. *)
Fixpoint sub_from (r : regex) (repl : str) (skip : nat) (s : str) : str :=
  match s with
  | [] => []
  | c :: s' =>
      match skip with
      | S n => sub_from r repl n s'
      | O => match match_at r s with
             | Some (S n) => repl ++ sub_from r repl n s'
             | _ => c :: sub_from r repl 0 s'
             end
      end
  end.

Definition sub (r : regex) (repl s : str) : str := sub_from r repl 0 s.

End Re.
Import Re.

(* ================================================================= *)
(** ** calendar_service.py *)

Module CalendarService.

Definition RED_CIRCLE : char := 128308%N.      (* U+1F534 *)
Definition ORANGE_CIRCLE : char := 128992%N.   (* U+1F7E0 *)
Definition GREEN_CIRCLE : char := 128994%N.    (* U+1F7E2 *)
Definition BOX_UP_RIGHT : char := 9492%N.      (* U+2514, the corner *)
Definition BOX_HORIZONTAL : char := 9472%N.    (* U+2500, the dash *)
Definition RIGHT_ARROW : char := 8594%N.       (* U+2192 *)

(** Decimal digits of a natural number, most significant first. *)
Fixpoint uint_chars (u : Decimal.uint) : str :=
  match u with
  | Decimal.Nil => []
  | Decimal.D0 u => 48%N :: uint_chars u
  | Decimal.D1 u => 49%N :: uint_chars u
  | Decimal.D2 u => 50%N :: uint_chars u
  | Decimal.D3 u => 51%N :: uint_chars u
  | Decimal.D4 u => 52%N :: uint_chars u
  | Decimal.D5 u => 53%N :: uint_chars u
  | Decimal.D6 u => 54%N :: uint_chars u
  | Decimal.D7 u => 55%N :: uint_chars u
  | Decimal.D8 u => 56%N :: uint_chars u
  | Decimal.D9 u => 57%N :: uint_chars u
  end.

Definition sign_chars (z : Z) : str := if (z <? 0)%Z then lit "-" else [].

(** [str(z)] *)
Definition str_of_int (z : Z) : str :=
  sign_chars z ++ uint_chars (N.to_uint (Z.abs_N z)).

(** A comma after every third digit, on the digits least significant first. *)
Fixpoint group3 (rev_digits : str) : str :=
  match rev_digits with
  | a :: b :: c :: ((_ :: _) as more) => a :: b :: c :: 44%N :: group3 more
  | _ => rev_digits
  end.

(** [f"{z:,}"] *)
Definition format_thousands (z : Z) : str :=
  sign_chars z ++ rev (group3 (rev (uint_chars (N.to_uint (Z.abs_N z))))).

(** [get_cost_display_format] *)
Definition get_cost_display_format (cost : Z) : str :=
  if (cost >? 1000)%Z then RED_CIRCLE :: lit " $" ++ format_thousands cost
  else if (cost >? 500)%Z then ORANGE_CIRCLE :: lit " $" ++ format_thousands cost
  else GREEN_CIRCLE :: lit " $" ++ format_thousands cost.

(** The argument [cost_info] of [annotate_event]: a bare int (legacy) or the
    dict of [compute_meeting_cost]. *)
Inductive CostArg :=
| LegacyInt (cost : Z)
| Dict (cost_info : CostInfo).

Section WithConfig.

Variable config : Config.

(** [list_changed_events]: the pagination loop ... *)
Fixpoint paginate (answer : Listing) (events : list Event)
  : Exn + (list Event * option str) :=
  match answer with
  | Raises e => inl e
  | Response items page sync next =>
      let events := events ++ items in
      match page with
      | Some p => if truthy p then paginate next events else inr (events, sync)
      | None => inr (events, sync)
      end
  end.

(** ... the test of the [except] clause ... *)
Definition is_stale_token_error (e : Exn) : bool :=
  contains (lit "syncToken") (exn_str e)
  && contains (lit "full sync") (lower (exn_str e)).

(** ... the request of lines 30-49 ... *)
Definition list_request (sync_token : option str) : ListRequest :=
  match sync_token with
  | Some t => if truthy t then Incremental t else Windowed (window_days config)
  | None => Windowed (window_days config)
  end.

(** ... and the function. *)
Definition list_changed_events (cal : Calendar) (calendar_id : str)
    (sync_token : option str)
  : Exn + (option (list Event) * option str) :=
  match paginate (events_list cal calendar_id (list_request sync_token)) [] with
  | inr (events, next_sync_token) => inr (Some events, next_sync_token)
  | inl e => if is_stale_token_error e then inr (None, None) else inl e
  end.

(** [create_dual_cost_display]; a dict without the two counts raises
    [KeyError] at line 84. *)
Definition create_dual_cost_display (cost_info : CostInfo) : Exn + str :=
  match invited_count cost_info, effective_count cost_info with
  | None, _ => inl (KeyError (lit "invited_count"))
  | Some _, None => inl (KeyError (lit "effective_count"))
  | Some invited_count, Some effective_count =>
      if (invited_cost cost_info =? effective_cost cost_info)%Z then
        inr (cost_tag config ++ lit ": "
             ++ get_cost_display_format (effective_cost cost_info))
      else
        inr (cost_tag config ++ lit ": "
             ++ get_cost_display_format (effective_cost cost_info)
             ++ [NEWLINE; BOX_UP_RIGHT; BOX_HORIZONTAL] ++ lit " Invited cost: "
             ++ get_cost_display_format (invited_cost cost_info)
             ++ lit " (" ++ str_of_int invited_count ++ lit " invited "
             ++ [RIGHT_ARROW] ++ lit " " ++ str_of_int effective_count
             ++ lit " attending)")
  end.

(** [tag_pattern]: the tag, a colon, the shortest text up to a line break not
    followed by a box character, or up to the end. *)
Definition tag_pattern : regex :=
  Seq (Lit (cost_tag config))
      (Seq (Lit (lit ":"))
           (Seq AnyLazy
                (Look (Alt (Seq (Lit [NEWLINE])
                                (NegLook (Class [BOX_UP_RIGHT; BOX_HORIZONTAL])))
                           Eos)))).

(** Lines 117-127 of [annotate_event]: the new description. *)
Definition new_description (desc cost_line : str) : str :=
  if search tag_pattern desc then sub tag_pattern cost_line desc
  else if strip_nonempty desc then cost_line ++ [NEWLINE; NEWLINE] ++ desc
  else cost_line.

(** The cost line and [extended_cost] of lines 107-115. *)
Definition cost_line_of (cost_info : CostArg) : Exn + (str * str) :=
  match cost_info with
  | LegacyInt cost =>
      inr (cost_tag config ++ lit ": " ++ get_cost_display_format cost,
           str_of_int cost)
  | Dict d =>
      match create_dual_cost_display d with
      | inl e => inl e
      | inr cost_line => inr (cost_line, str_of_int (effective_cost d))
      end
  end.

(** [annotate_event]: the exception raised, or the patch request that was
    executed. *)
Definition annotate_event (cal : Calendar) (calendar_id : str) (event : Event)
    (cost_info : CostArg) : Exn + PatchRequest :=
  match id event with
  | None => inl (KeyError (lit "id"))
  | Some event_id =>
      let desc := match description event with Some d => d | None => [] end in
      match cost_line_of cost_info with
      | inl e => inl e
      | inr (cost_line, extended_cost) =>
          let new_desc := new_description desc cost_line in
          let patch_body := {|
            body_description := new_desc;
            meetingCost := extended_cost;
            invitedCost := match cost_info with
                           | Dict d => str_of_int (invited_cost d)
                           | LegacyInt _ => extended_cost
                           end;
            effectiveCost := match cost_info with
                             | Dict d => str_of_int (effective_cost d)
                             | LegacyInt _ => extended_cost
                             end |} in
          let request := {|
            calendarId := calendar_id;
            eventId := event_id;
            body := patch_body;
            sendNotifications := false |} in
          match events_patch cal request with
          | Some e => inl e
          | None => inr request
          end
      end
  end.

End WithConfig.

End CalendarService.
Import CalendarService.

(* ================================================================= *)
(** ** main.py *)

Module Main.

(** What the run finds outside itself: the Directory listing, the Calendar
    resource of each user and the sync tokens Firestore holds at the start.
    The calls that obtain them ([list_active_users], [calendar_service],
    [get_sync_token]) and [save_sync_token] are taken to return: their own
    failures (credentials, Directory, Firestore) are outside the embedding,
    which follows the exceptions of the Calendar listings and writes. *)
Record World := {
  list_active_users : list str;
  calendar_service : str -> Calendar;
  stored_tokens : str -> option str
}.

(** What the run has done so far: the two counters, the lines printed, the
    listings requested (calendar and first request of each call of
    [list_changed_events]), the patch requests executed, the Firestore
    documents as they now are and the number of throttling pauses. *)
Record RunState := {
  processed : Z;
  skipped : Z;
  printed : list str;
  listed : list (str * ListRequest);
  patched : list PatchRequest;
  tokens : str -> option str;
  pauses : nat
}.

Definition initial_state (w : World) : RunState := {|
  processed := 0;
  skipped := 0;
  printed := [];
  listed := [];
  patched := [];
  tokens := stored_tokens w;
  pauses := 0
|}.

(** [save_sync_token] *)
Definition save_sync_token (st : RunState) (email token : str) : RunState := {|
  processed := processed st;
  skipped := skipped st;
  printed := printed st;
  listed := listed st;
  patched := patched st;
  tokens := fun e => if str_eqb e email then Some token else tokens st e;
  pauses := pauses st
|}.

(** [get_sync_token] *)
Definition get_sync_token (st : RunState) (email : str) : option str :=
  tokens st email.

(** [time.sleep(0.1)] *)
Definition sleep (st : RunState) : RunState := {|
  processed := processed st;
  skipped := skipped st;
  printed := printed st;
  listed := listed st;
  patched := patched st;
  tokens := tokens st;
  pauses := S (pauses st)
|}.

Definition count_skipped (st : RunState) : RunState := {|
  processed := processed st;
  skipped := skipped st + 1;
  printed := printed st;
  listed := listed st;
  patched := patched st;
  tokens := tokens st;
  pauses := pauses st
|}.

Definition count_processed (st : RunState) (request : PatchRequest)
  : RunState := {|
  processed := processed st + 1;
  skipped := skipped st;
  printed := printed st;
  listed := listed st;
  patched := patched st ++ [request];
  tokens := tokens st;
  pauses := pauses st
|}.

Definition record_listings (st : RunState) (calendar_id : str)
    (requests : list ListRequest) : RunState := {|
  processed := processed st;
  skipped := skipped st;
  printed := printed st;
  listed := listed st ++ map (pair calendar_id) requests;
  patched := patched st;
  tokens := tokens st;
  pauses := pauses st
|}.

Definition print (st : RunState) (line : str) : RunState := {|
  processed := processed st;
  skipped := skipped st;
  printed := printed st ++ [line];
  listed := listed st;
  patched := patched st;
  tokens := tokens st;
  pauses := pauses st
|}.

(** The line printed by the [except] clause of the event loop. *)
Definition failure_line (email : str) (event : Event) (e : Exn) : str :=
  lit "Failed to annotate event " ++ email ++ lit ":"
  ++ match id event with Some i => i | None => lit "None" end
  ++ lit ": " ++ exn_str e.

Section WithConfig.

Variable config : Config.

(** The body of [for event in items]. *)
Definition process_event (cal : Calendar) (email : str)
    (st : RunState) (event : Event) : RunState :=
  let cost_info := compute_meeting_cost config event None in
  if (effective_cost cost_info <? 0)%Z then count_skipped st
  else
    match annotate_event config cal email event (Dict cost_info) with
    | inr request => count_processed st request
    | inl e => print st (failure_line email event e)
    end.

(** The fetch of lines 28-31: one call, and one more without a token when
    the first returned [(None, None)]; with the requests sent. *)
Definition fetch_events (cal : Calendar) (email : str)
    (sync_token : option str)
  : list ListRequest * (Exn + (option (list Event) * option str)) :=
  match list_changed_events config cal email sync_token with
  | inl e => ([list_request config sync_token], inl e)
  | inr (None, None) =>
      ([list_request config sync_token; list_request config None],
       list_changed_events config cal email None)
  | inr (items, next_token) =>
      ([list_request config sync_token], inr (items, next_token))
  end.

(** The body of [for idx, email in enumerate(users)]: the state when the
    body ends, and the exception if it ended by one. *)
Definition process_user (w : World) (st : RunState) (idx : nat) (email : str)
  : RunState * option Exn :=
  let st := if (idx mod 20 =? 0)%nat then sleep st else st in
  let cal := calendar_service w email in
  let sync_token := get_sync_token st email in
  let (requests, fetched) := fetch_events cal email sync_token in
  let st := record_listings st email requests in
  match fetched with
  | inl e => (st, Some e)
  | inr (None, _) =>
      (st, Some (TypeError (lit "'NoneType' object is not iterable")))
  | inr (Some items, next_token) =>
      let st := fold_left (process_event cal email) items st in
      match next_token with
      | Some t => if truthy t then (save_sync_token st email t, None)
                  else (st, None)
      | None => (st, None)
      end
  end.

Fixpoint users_loop (w : World) (idx : nat) (users : list str) (st : RunState)
  : RunState * option Exn :=
  match users with
  | [] => (st, None)
  | email :: rest =>
      match process_user w st idx email with
      | (st', Some e) => (st', Some e)
      | (st', None) => users_loop w (S idx) rest st'
      end
  end.

(** The JSON body of the response. *)
Record Report := {
  report_processed : Z;
  report_skipped : Z
}.

(** [cron]: the state the run leaves behind, and either the exception that
    ended it or its report (with status 200). *)
Definition cron (w : World) : RunState * (Exn + Report * Z) :=
  match users_loop w 0 (list_active_users w) (initial_state w) with
  | (st, Some e) => (st, inl e)
  | (st, None) =>
      (st, inr ({| report_processed := processed st;
                   report_skipped := skipped st |}, 200%Z))
  end.

End WithConfig.

End Main.
Import Main.

(* ================================================================= *)
(** ** user_service.py *)

Module UserService.

(** What the Directory API answers to the [users().list] request and to the
    requests for the pages after it.  An entry of a page is the user's
    [primaryEmail], [None] when the key is missing. *)
Inductive DirectoryListing :=
| DirectoryRaises (e : Exn)
| DirectoryPage (users : list (option str)) (nextPageToken : option str)
                (next : DirectoryListing).

(** The inner loop of lines 25-27: the addresses of one page. *)
Definition primary_emails (users : list (option str)) : list str :=
  flat_map (fun user => match user with Some e => [e] | None => [] end) users.

(** [l[:n]], also for a negative [n]. *)
Definition slice_to (A : Type) (l : list A) (n : Z) : list A :=
  if (0 <=? n)%Z then firstn (Z.to_nat n) l
  else firstn (length l - Z.to_nat (- n)) l.

Section WithConfig.

Variable config : Config.

(** The [while True] loop, with the number of requests executed. *)
Fixpoint collect_users (answer : DirectoryListing) (users : list str)
    (requests : nat) : nat * (Exn + list str) :=
  match answer with
  | DirectoryRaises e => (S requests, inl e)
  | DirectoryPage page token next =>
      let users := users ++ primary_emails page in
      let more := match token with Some t => truthy t | None => false end in
      if negb more || (max_users config <=? Z.of_nat (length users))%Z
      then (S requests, inr users)
      else collect_users next users (S requests)
  end.

(** [list_active_users] *)
Definition list_active_users (directory : DirectoryListing)
  : nat * (Exn + list str) :=
  match collect_users directory [] 0 with
  | (requests, inl e) => (requests, inl e)
  | (requests, inr users) => (requests, inr (slice_to users (max_users config)))
  end.

End WithConfig.

End UserService.

(* ================================================================= *)
(** ** Vocabulary of the specification *)

Module Spec.

(** Rounding to the nearest integer, a tie going away from zero. *)
Definition round_half_away_from_zero (x : Q) : Z :=
  if Qle_bool 0 x then Qfloor (x + (1 # 2)) else Qceiling (x - (1 # 2)).

(** Two characters that differ at most in the case of an ASCII letter. *)
Definition same_letter (a b : char) : Prop :=
  a = b
  \/ (is_upper a = true /\ b = (a + 32)%N)
  \/ (is_upper b = true /\ a = (b + 32)%N).

(** [s] ends with [suf], neither side's letter case taken into account. *)
Definition ends_with_ignoring_case (s suf : str) : Prop :=
  exists before tail, s = before ++ tail /\ Forall2 same_letter tail suf.

(** The text [s] holds the text [part], as it is and with the case of
    ASCII letters ignored. *)
Definition holds (s part : str) : Prop :=
  exists before after, s = before ++ part ++ after.

Definition holds_ignoring_case (s part : str) : Prop :=
  exists before middle after,
    s = before ++ middle ++ after /\ Forall2 same_letter middle part.

(** The error in which the upstream's demand for a full synchronisation
    arrives: its text names the [syncToken] and asks for a [full sync], in
    whatever letter case. *)
Definition synchronization_required (e : Exn) : Prop :=
  holds (exn_str e) (lit "syncToken")
  /\ holds_ignoring_case (exn_str e) (lit "full sync").

(** The event is timed and ends after it starts. *)
Definition ends_after_start (ev : Event) : Prop :=
  exists s e, dateTime (start ev) = Some s /\ dateTime (end_ ev) = Some e
              /\ (s < e)%Z.

(** The attendees as the cost policy classifies them, read from the fields
    of the entries of [event["attendees"]]: an entry counts when it carries
    a non-empty address; it is internal or external by that address, and an
    internal one is effective when its response, [needsAction] when the
    entry has none, is one of accepted, tentative and needsAction, letter
    case ignored. *)
Definition has_address (a : Attendee) (e : str) : Prop :=
  email a = Some e /\ e <> [].

Definition internal_attendee (config : Config) (a : Attendee) : Prop :=
  exists e, has_address a e /\ internal_email config e = true.

Definition external_attendee (config : Config) (a : Attendee) : Prop :=
  exists e, has_address a e /\ internal_email config e = false.

Definition response (a : Attendee) : str :=
  match responseStatus a with Some r => r | None => lit "needsAction" end.

Definition answered (word : String.string) (a : Attendee) : Prop :=
  Forall2 same_letter (response a) (lit word).
Arguments answered word%_string a.

Definition effective_attendee (config : Config) (a : Attendee) : Prop :=
  internal_attendee config a
  /\ (answered "accepted" a \/ answered "tentative" a
      \/ answered "needsaction" a).

(** [n] of the entries of the list satisfy [P]. *)
Inductive counted (P : Attendee -> Prop) : list Attendee -> nat -> Prop :=
| counted_nil : counted P [] 0
| counted_in a l n : P a -> counted P l n -> counted P (a :: l) (S n)
| counted_out a l n : ~ P a -> counted P l n -> counted P (a :: l) n.

(** The six reason codes of a skip result. *)
Definition skip_reasons : list str :=
  [lit "no_duration"; lit "mixed_meeting"; lit "no_internal_attendees";
   lit "solo_meeting"; lit "all_declined"; lit "effective_solo_meeting"].

(** The two shapes of a result. *)
Definition skip_shape (r : CostInfo) : Prop :=
  invited_cost r = (-1)%Z /\ effective_cost r = (-1)%Z
  /\ exists reason, In reason skip_reasons /\ skip_reason r = Some reason.

Definition qualifying_shape (r : CostInfo) : Prop :=
  (0 <= invited_cost r)%Z /\ (0 <= effective_cost r)%Z
  /\ (exists n, invited_count r = Some n /\ (2 <= n)%Z)
  /\ (exists m, effective_count r = Some m /\ (2 <= m)%Z)
  /\ (exists h, hours r = Some h /\ (0 < h)%Q)
  /\ skip_reason r = None.

End Spec.
Import Spec.

(* ================================================================= *)
(** ** Auxiliary notions of the analysis *)

Module Analysis.

(** No upper-case ASCII letter occurs in [s]. *)
Definition no_upper (s : str) : bool := forallb (fun c => negb (is_upper c)) s.

(** The result of [compute_meeting_cost], branch by branch. *)
Inductive Decision (config : Config) (ev : Event) (rate : option Q)
  : CostInfo -> Prop :=
| D_no_duration :
    (event_duration_hours ev <= 0)%Q ->
    Decision config ev rate (skip "no_duration")
| D_mixed :
    (0 < event_duration_hours ev)%Q ->
    internal_only config = true ->
    length (internal_attendees config ev) <> length (listed_attendees ev) ->
    Decision config ev rate (skip "mixed_meeting")
| D_no_internal :
    (0 < event_duration_hours ev)%Q ->
    (internal_only config = false
     \/ length (internal_attendees config ev) = length (listed_attendees ev)) ->
    length (internal_attendees config ev) = 0%nat ->
    Decision config ev rate (skip "no_internal_attendees")
| D_solo :
    (0 < event_duration_hours ev)%Q ->
    (internal_only config = false
     \/ length (internal_attendees config ev) = length (listed_attendees ev)) ->
    length (internal_attendees config ev) = 1%nat ->
    Decision config ev rate (skip "solo_meeting")
| D_all_declined :
    (0 < event_duration_hours ev)%Q ->
    (internal_only config = false
     \/ length (internal_attendees config ev) = length (listed_attendees ev)) ->
    (2 <= length (internal_attendees config ev))%nat ->
    length (effective_attendees config ev) = 0%nat ->
    Decision config ev rate (skip "all_declined")
| D_effective_solo :
    (0 < event_duration_hours ev)%Q ->
    (internal_only config = false
     \/ length (internal_attendees config ev) = length (listed_attendees ev)) ->
    (2 <= length (internal_attendees config ev))%nat ->
    length (effective_attendees config ev) = 1%nat ->
    Decision config ev rate (skip "effective_solo_meeting")
| D_costed :
    (0 < event_duration_hours ev)%Q ->
    (internal_only config = false
     \/ length (internal_attendees config ev) = length (listed_attendees ev)) ->
    (2 <= length (internal_attendees config ev))%nat ->
    (2 <= length (effective_attendees config ev))%nat ->
    Decision config ev rate
      {| invited_cost :=
           py_round (fmul (fmul (event_duration_hours ev)
                                 (float_of_int
                                    (Z.of_nat (length (internal_attendees config ev)))))
                           (rate_used config rate));
         effective_cost :=
           py_round (fmul (fmul (event_duration_hours ev)
                                 (float_of_int
                                    (Z.of_nat (length (effective_attendees config ev)))))
                           (rate_used config rate));
         invited_count := Some (Z.of_nat (length (internal_attendees config ev)));
         effective_count := Some (Z.of_nat (length (effective_attendees config ev)));
         hours := Some (event_duration_hours ev);
         skip_reason := None |}.

(** Rounding to a multiple of [2 ^ e], as [binary64] does with the
    exponent it chooses. *)
Definition round_at (e : Z) (x : Q) : Q :=
  (inject_Z (py_round (x / 2 ^ e)) * 2 ^ e)%Q.

(** The finite numbers of binary64: a significand below [2 ^ 53] and an
    exponent from -1074 to 971. *)
Definition is_binary64 (x : Q) : Prop :=
  exists m e : Z,
    (Z.abs m < 2 ^ 53)%Z /\ (-1074 <= e <= 971)%Z
    /\ (x == inject_Z m * 2 ^ e)%Q.

(** Below [2 ^ 1024] in magnitude: where binary64 has a finite number. *)
Definition in_range (x : Q) : Prop := (Qabs x < 2 ^ 1024)%Q.

(** The text every annotation block starts with: the tag and a colon. *)
Definition marker (config : Config) : str := cost_tag config ++ lit ":".

(** One of the two characters of the pattern's class. *)
Definition is_box (c : char) : bool :=
  existsb (N.eqb c) [BOX_UP_RIGHT; BOX_HORIZONTAL].

(** Where a block ends: at the end of the text, or at a line break that no
    box character follows. *)
Definition stop_here (s : str) : bool :=
  match s with
  | [] => true
  | c :: s' =>
      N.eqb c NEWLINE
      && match s' with
         | [] => true
         | d :: _ => negb (is_box d)
         end
  end.

(** What is left of [s] from the first place where a block may end. *)
Fixpoint scan (s : str) : str :=
  if stop_here s then s
  else match s with
       | [] => []
       | _ :: s' => scan s'
       end.

(** A piece of text inside which no block ends, whatever follows it. *)
Definition transparent (a : str) : Prop := forall x, scan (a ++ x) = scan x.

(** No line break occurs in [s]. *)
Definition one_line (s : str) : bool :=
  forallb (fun c => negb (N.eqb c NEWLINE)) s.

(** A tag that does not start with a line break and holds no backslash
    (which [re.sub] would read, in the cost line, as the start of an
    escape). *)
Definition plain_tag (tag : str) : Prop :=
  hd_error tag <> Some NEWLINE /\ ~ In BACKSLASH tag.

(** The event as the calendar holds it once its description is patched. *)
Definition with_description (event : Event) (text : str) : Event :=
  {| id := id event; start := start event; end_ := end_ event;
     attendees := attendees event; description := Some text |}.

End Analysis.
Import Analysis.

(* ================================================================= *)
(** ** Fixtures *)

Module Fixtures.

(** Events, calendars and worlds the examples below are run on; the
    domain is the default one. *)

Definition HOUR : Z := 3600000000.           (* microseconds *)
Definition T0 : Z := 1705312800000000.       (* 2024-01-15T10:00:00Z *)

Definition timed (t : Z) : EventTime := {| dateTime := Some t; date := None |}.
Definition all_day (d : string) : EventTime :=
  {| dateTime := None; date := Some (lit d) |}.

Definition attendee (address : string) (response : option string) : Attendee :=
  {| email := Some (lit address); responseStatus := option_map lit response |}.

Definition meeting (from to : EventTime) (who : list Attendee) : Event :=
  {| id := Some (lit "evt1"); start := from; end_ := to; attendees := who;
     description := None |}.

Definition alice := attendee "alice@hginsights.com" (Some "accepted"%string).
Definition bob := attendee "bob@hginsights.com" (Some "accepted"%string).
Definition carol := attendee "Carol@HGInsights.com" None.
Definition bob_declined := attendee "bob@hginsights.com" (Some "declined"%string).
Definition carol_declined := attendee "carol@hginsights.com" (Some "Declined"%string).
Definition eve := attendee "eve@partner.example" (Some "accepted"%string).

(** Meetings by duration and guest list. *)
Definition one_hour_two := meeting (timed T0) (timed (T0 + HOUR)) [alice; bob].
Definition long_three := meeting (timed T0) (timed (T0 + 9000000000)) [alice; bob; carol].
Definition ten_seconds := meeting (timed T0) (timed (T0 + 10000000)) [alice; bob_declined; carol].
Definition twenty_two_minutes := meeting (timed T0) (timed (T0 + 1320000000)) [alice; bob; carol].
Definition one_hour_one_declined := meeting (timed T0) (timed (T0 + HOUR)) [alice; bob_declined; carol].
Definition all_day_two := meeting (all_day "2023-12-01") (all_day "2023-12-02") [alice; bob].
Definition ends_before_start := meeting (timed (T0 + HOUR)) (timed T0) [alice; bob].
Definition with_guest := meeting (timed T0) (timed (T0 + HOUR)) [alice; eve].
Definition nobody := meeting (timed T0) (timed (T0 + HOUR)) [].
Definition alone := meeting (timed T0) (timed (T0 + HOUR)) [alice].
Definition both_declined := meeting (timed T0) (timed (T0 + HOUR)) [bob_declined; carol_declined].
Definition one_left := meeting (timed T0) (timed (T0 + HOUR)) [alice; bob_declined].

(** The default configuration with the rate's sign flipped. *)
Definition negative_rate_config : Config :=
  {| domain := lit "hginsights.com"; default_rate := (-125)%Q;
     cost_tag := lit "[[MEETING_COST]]"; internal_only := true;
     max_users := 10000; window_days := 35 |}.

(** A calendar without events that accepts every write. *)
Definition empty_calendar : Calendar :=
  {| events_list := fun _ _ => Response [] None None (Raises (UpstreamError []));
     events_patch := fun _ => None |}.

Definition blank_state : RunState :=
  {| processed := 0; skipped := 0; printed := []; listed := []; patched := [];
     tokens := fun _ => None; pauses := 0 |}.

Definition ALICE : str := lit "alice@hginsights.com".
Definition BOB : str := lit "bob@hginsights.com".

(** [str(e)] of the error the API raises for an expired sync token. *)
Definition STALE_MESSAGE : str :=
  lit "<HttpError 410 when requesting https://www.googleapis.com/calendar/v3/calendars/alice/events?syncToken=old&alt=json returned Sync token is no longer valid, a full sync is required.>".

Definition end_of_listing : Listing := Raises (UpstreamError []).

(** A calendar whose stored token has expired, holding one meeting. *)
Definition stale_calendar : Calendar :=
  {| events_list := fun _ request =>
       match request with
       | Incremental _ => Raises (UpstreamError STALE_MESSAGE)
       | Windowed _ =>
           Response [one_hour_two] None (Some (lit "fresh")) end_of_listing
       end;
     events_patch := fun _ => None |}.

(** A calendar whose listing fails. *)
Definition unavailable_calendar : Calendar :=
  {| events_list := fun _ _ =>
       Raises (UpstreamError (lit "503 Service Unavailable"));
     events_patch := fun _ => None |}.

(** A calendar holding one meeting. *)
Definition one_meeting_calendar : Calendar :=
  {| events_list := fun _ _ =>
       Response [one_hour_two] None (Some (lit "next")) end_of_listing;
     events_patch := fun _ => None |}.

(** A calendar holding one meeting and refusing every write. *)
Definition read_only_calendar : Calendar :=
  {| events_list := fun _ _ =>
       Response [one_hour_two] None (Some (lit "next")) end_of_listing;
     events_patch := fun _ => Some (UpstreamError (lit "403 Forbidden")) |}.

Definition stale_world : World :=
  {| list_active_users := [ALICE];
     calendar_service := fun _ => stale_calendar;
     stored_tokens := fun _ => Some (lit "old") |}.

(** Alice's calendar is unavailable, Bob's holds a meeting. *)
Definition outage_world : World :=
  {| list_active_users := [ALICE; BOB];
     calendar_service := fun email =>
       if str_eqb email ALICE then unavailable_calendar
       else one_meeting_calendar;
     stored_tokens := fun _ => None |}.

Definition bob_only_world : World :=
  {| list_active_users := [BOB];
     calendar_service := fun _ => one_meeting_calendar;
     stored_tokens := fun _ => None |}.

Definition read_only_world : World :=
  {| list_active_users := [ALICE];
     calendar_service := fun _ => read_only_calendar;
     stored_tokens := fun _ => None |}.

Definition quiet_world : World :=
  {| list_active_users := [ALICE];
     calendar_service := fun _ => empty_calendar;
     stored_tokens := fun _ => None |}.

(** A qualifying result with the given costs and counts. *)
Definition costs (invited effective invited_n effective_n : Z) : CostInfo :=
  {| invited_cost := invited; effective_cost := effective;
     invited_count := Some invited_n; effective_count := Some effective_n;
     hours := Some 1%Q; skip_reason := None |}.

(** The single-line block for a cost of 250. *)
Definition line_250 : str :=
  lit "[[MEETING_COST]]: " ++ [GREEN_CIRCLE] ++ lit " $250".

(** The two-line block for costs of 500 (effective) and 750 (invited). *)
Definition line_500_750 : str :=
  lit "[[MEETING_COST]]: " ++ [GREEN_CIRCLE] ++ lit " $500"
  ++ [NEWLINE; BOX_UP_RIGHT; BOX_HORIZONTAL] ++ lit " Invited cost: "
  ++ [ORANGE_CIRCLE] ++ lit " $750 (3 invited " ++ [RIGHT_ARROW]
  ++ lit " 2 attending)".

(** A line the user drew with box characters around the word Agenda. *)
Definition agenda_rule : str :=
  [NEWLINE] ++ repeat BOX_HORIZONTAL 3 ++ lit " Agenda " ++ repeat BOX_HORIZONTAL 3.

End Fixtures.
Import Fixtures.

(* ================================================================= *)
(** ** Further notions and fixtures *)

Module More.

(** The event with its attendee list replaced. *)
Definition with_attendees (event : Event) (who : list Attendee) : Event :=
  {| id := id event; start := start event; end_ := end_ event;
     attendees := who; description := description event |}.

(** The text with the thousands separators taken out. *)
Definition without_commas (s : str) : str :=
  filter (fun c => negb (N.eqb c 44%N)) s.

(** Number of line breaks in a text. *)
Definition line_breaks (s : str) : nat := length (filter (N.eqb NEWLINE) s).

(** Pages that each announce a further page, followed by [last]. *)
Definition more_pages (pages : list (list Event * str * option str))
    (last : Listing) : Listing :=
  fold_right
    (fun page rest =>
       Response (fst (fst page)) (Some (snd (fst page))) (snd page) rest)
    last pages.

(** What a run keeps true of its state: [processed] counts the patches
    executed, [skipped] is not negative, and every patch went, without
    notifications, to the calendar of one of the [users]. *)
Definition run_invariant (users : list str) (st : RunState) : Prop :=
  processed st = Z.of_nat (length (patched st))
  /\ (0 <= skipped st)%Z
  /\ Forall (fun request =>
               sendNotifications request = false
               /\ In (calendarId request) users) (patched st).

(** The addresses of the directory, page after page, as far as its pages
    announce a next one. *)
Fixpoint directory_emails (d : UserService.DirectoryListing) : list str :=
  match d with
  | UserService.DirectoryRaises _ => []
  | UserService.DirectoryPage page token next =>
      UserService.primary_emails page
      ++ match token with
         | Some t => if truthy t then directory_emails next else []
         | None => []
         end
  end.

(** The addresses of the first [k] pages. *)
Fixpoint emails_of_pages (k : nat) (d : UserService.DirectoryListing)
  : list str :=
  match k, d with
  | S k', UserService.DirectoryPage page _ next =>
      UserService.primary_emails page ++ emails_of_pages k' next
  | _, _ => []
  end.

(** The test of tests/test_event_annotation.py, lines 74-75, for an internal
    attendee: [a.get('email', '').endswith(f"@{config.domain}")]. *)
Definition test_counts_as_internal (config : Config) (a : Attendee) : bool :=
  endswith (match email a with Some e => e | None => [] end)
           (lit "@" ++ domain config).

(** A calendar that answers every listing with the stale-token error. *)
Definition always_stale_calendar : Calendar :=
  {| events_list := fun _ _ => Raises (UpstreamError STALE_MESSAGE);
     events_patch := fun _ => None |}.

(** The message of the API for an expired sync token, without the request
    it answers. *)
Definition GONE_MESSAGE : str :=
  lit "Sync token is no longer valid, a full sync is required.".

(** A calendar that rejects every cursor with that message alone. *)
Definition gone_calendar : Calendar :=
  {| events_list := fun _ request =>
       match request with
       | Incremental _ => Raises (UpstreamError GONE_MESSAGE)
       | Windowed _ =>
           Response [one_hour_two] None (Some (lit "fresh")) end_of_listing
       end;
     events_patch := fun _ => None |}.

(** One user, whose calendar always answers with the stale-token error. *)
Definition always_stale_world : World :=
  {| list_active_users := [ALICE];
     calendar_service := fun _ => always_stale_calendar;
     stored_tokens := fun _ => Some (lit "old") |}.

(** A directory of two pages; one entry has no primary address. *)
Definition two_page_directory : UserService.DirectoryListing :=
  UserService.DirectoryPage [Some ALICE; None] (Some (lit "p2"))
    (UserService.DirectoryPage [Some BOB] None
       (UserService.DirectoryRaises (UpstreamError []))).

(** The default configuration with [COST_TAG] set to a line break. *)
Definition line_break_tag_config : Config :=
  {| domain := lit "hginsights.com"; default_rate := 125%Q;
     cost_tag := [NEWLINE]; internal_only := true;
     max_users := 10000; window_days := 35 |}.

(** The default configuration with [MAX_USERS] set to -1. *)
Definition no_room_config : Config :=
  {| domain := lit "hginsights.com"; default_rate := 125%Q;
     cost_tag := lit "[[MEETING_COST]]"; internal_only := true;
     max_users := -1; window_days := 35 |}.

End More.
Import More.

(* ================================================================= *)
(** * Properties *)

(** ** Strings *)

Lemma str_eqb_eq (a b : str) : str_eqb a b = true <-> a = b.
Proof.
  revert b; induction a as [|x a IH]; intros [|y b]; simpl; split;
    try congruence; try reflexivity.
  - intros H. apply andb_true_iff in H as [Hx Hab].
    apply N.eqb_eq in Hx. apply IH in Hab. congruence.
  - intros H. injection H as -> ->. rewrite N.eqb_refl. simpl. now apply IH.
Qed.

Lemma str_eqb_refl (a : str) : str_eqb a a = true.
Proof. now apply str_eqb_eq. Qed.

Lemma endswith_spec (s suf : str) :
  endswith s suf = true <-> exists before, s = before ++ suf.
Proof.
  unfold endswith. rewrite andb_true_iff, Nat.leb_le, str_eqb_eq. split.
  - intros [_ H]. exists (firstn (length s - length suf) s).
    rewrite <- H at 2. symmetry. apply firstn_skipn.
  - intros [before ->]. rewrite length_app. split; [lia|].
    replace (length before + length suf - length suf)%nat
      with (length before) by lia.
    now rewrite skipn_app, skipn_all, Nat.sub_diag.
Qed.

Lemma lower_char_not_upper (c : char) : is_upper (lower_char c) = false.
Proof.
  unfold lower_char. destruct (is_upper c) eqn:E; [|exact E].
  unfold is_upper in *. apply andb_true_iff in E as [E1 E2].
  apply N.leb_le in E1, E2. apply andb_false_iff. right. apply N.leb_gt. lia.
Qed.

Lemma lower_char_fixed (c : char) : is_upper c = false -> lower_char c = c.
Proof. unfold lower_char. now intros ->. Qed.

Lemma lower_fixed (s : str) : no_upper s = true <-> lower s = s.
Proof.
  induction s as [|c s IH]; simpl; [tauto|].
  rewrite andb_true_iff, negb_true_iff, IH. split.
  - intros [Hc Hs]. now rewrite lower_char_fixed, Hs.
  - intros H. injection H as Hc Hs. split; [|exact Hs].
    rewrite <- Hc. apply lower_char_not_upper.
Qed.

Lemma same_letter_lower (a b : char) :
  same_letter a b <-> lower_char a = lower_char b.
Proof.
  unfold same_letter, lower_char. split.
  - intros [->|[[Ha ->]|[Hb ->]]]; [reflexivity| |].
    + rewrite Ha. destruct (is_upper (a + 32)%N) eqn:E; [|reflexivity].
      unfold is_upper in *. apply andb_true_iff in Ha as [H1 H2], E as [H3 H4].
      apply N.leb_le in H1, H2, H3, H4. lia.
    + rewrite Hb. destruct (is_upper (b + 32)%N) eqn:E; [|reflexivity].
      unfold is_upper in *. apply andb_true_iff in Hb as [H1 H2], E as [H3 H4].
      apply N.leb_le in H1, H2, H3, H4. lia.
  - destruct (is_upper a) eqn:Ha, (is_upper b) eqn:Hb; intros H.
    + left. lia.
    + right; left. split; [reflexivity|]. now symmetry.
    + right; right. split; [reflexivity|]. exact H.
    + now left.
Qed.

Lemma eq_ignoring_case_lower (s t : str) :
  Forall2 same_letter s t <-> lower s = lower t.
Proof.
  revert t; induction s as [|a s IH]; intros [|b t]; simpl; split; intros H;
    try constructor; try (inversion H; fail); try discriminate.
  - inversion H; subst. f_equal; [now apply same_letter_lower|now apply IH].
  - injection H as H1 H2. now apply same_letter_lower.
  - injection H as H1 H2. now apply IH.
Qed.

Lemma no_upper_app (s t : str) :
  no_upper (s ++ t) = no_upper s && no_upper t.
Proof. unfold no_upper. apply forallb_app. Qed.

Lemma no_upper_lower (s : str) : no_upper (lower s) = true.
Proof.
  induction s as [|c s IH]; simpl; [reflexivity|].
  now rewrite lower_char_not_upper, IH.
Qed.

Lemma strip_prefix_app (a b s : str) :
  strip_prefix (a ++ b) s
  = match strip_prefix a s with
    | Some s' => strip_prefix b s'
    | None => None
    end.
Proof.
  revert s. induction a as [|x a IH]; intros s; simpl; [reflexivity|].
  destruct s as [|y s]; [reflexivity|]. destruct (N.eqb x y); auto.
Qed.

Lemma strip_prefix_spec (p s rest : str) :
  strip_prefix p s = Some rest <-> s = p ++ rest.
Proof.
  revert s. induction p as [|x p IH]; intros s; simpl.
  - split; congruence.
  - destruct s as [|y s]; [split; discriminate|].
    destruct (N.eqb_spec x y) as [->|NE].
    + rewrite IH. split; congruence.
    + split; [discriminate|]. intros H. congruence.
Qed.

Lemma contains_holds (part s : str) : contains part s = true <-> holds s part.
Proof.
  unfold holds. induction s as [|c s IH]; cbn [contains].
  - rewrite orb_false_r. unfold startswith. split.
    + destruct (strip_prefix part []) as [rest|] eqn:E; [|discriminate].
      intros _. apply strip_prefix_spec in E. now exists [], rest.
    + intros (before & after & H). symmetry in H.
      apply app_eq_nil in H as [-> H]. apply app_eq_nil in H as [-> ->].
      reflexivity.
  - rewrite orb_true_iff, IH. unfold startswith. split.
    + intros [H|(before & after & ->)].
      * destruct (strip_prefix part (c :: s)) as [rest|] eqn:E; [|discriminate].
        apply strip_prefix_spec in E. now exists [], rest.
      * now exists (c :: before), after.
    + intros ([|d before] & after & H).
      * left. cbn [app] in H. apply strip_prefix_spec in H. now rewrite H.
      * right. injection H as _ ->. now exists before, after.
Qed.

Lemma contains_lower_holds (part s : str) :
  no_upper part = true ->
  contains part (lower s) = true <-> holds_ignoring_case s part.
Proof.
  intros Hp. apply lower_fixed in Hp.
  rewrite contains_holds. unfold holds, holds_ignoring_case, lower. split.
  - intros (before & after & H).
    apply map_eq_app in H as (b & rest & -> & Hb & H).
    apply map_eq_app in H as (m & a & -> & Hm & Ha).
    exists b, m, a. split; [reflexivity|].
    apply eq_ignoring_case_lower. rewrite Hp. exact Hm.
  - intros (b & m & a & -> & H). apply eq_ignoring_case_lower in H.
    rewrite Hp in H. unfold lower in H.
    exists (map lower_char b), (map lower_char a).
    now rewrite !map_app, H.
Qed.

(** ** internal_email *)

(** C9: the claim asks for a comparison that ignores letter case on both
    sides; [internal_email] lower-cases the address only.  With the domain
    configured as [Example.com], the address [alice@example.com] ends with
    [@Example.com] up to letter case, and [internal_email] answers
    [False]. *)
Lemma internal_email_upper_case_domain :
  let config := {| domain := lit "Example.com"; default_rate := 125;
                   cost_tag := lit "[[MEETING_COST]]"; internal_only := true;
                   max_users := 10000; window_days := 35 |} in
  ends_with_ignoring_case (lit "alice@example.com") (lit "@" ++ domain config)
  /\ internal_email config (lit "alice@example.com") = false.
Proof.
  split; [|reflexivity].
  exists (lit "alice"), (lit "@example.com"). split; [reflexivity|].
  apply eq_ignoring_case_lower. reflexivity.
Qed.

(** ** Rounding, durations and the branches of compute_meeting_cost *)

Lemma py_round_cases (x : Q) :
  let f := Qfloor x in
  (inject_Z f <= x)%Q /\ (x < inject_Z f + 1)%Q /\
  (((x - inject_Z f < 1 # 2)%Q /\ py_round x = f)
   \/ ((x - inject_Z f == 1 # 2)%Q /\ py_round x = (if Z.even f then f else f + 1)%Z)
   \/ ((1 # 2 < x - inject_Z f)%Q /\ py_round x = (f + 1)%Z)).
Proof.
  intros f. split; [apply Qfloor_le|]. split.
  { pose proof (Qlt_floor x) as H. fold f in H. rewrite inject_Z_plus in H. exact H. }
  unfold py_round. fold f.
  destruct (Qcompare_spec (x - inject_Z f) (1 # 2)) as [E|E|E]; auto.
Qed.

Lemma py_round_mono (x y : Q) : (x <= y)%Q -> (py_round x <= py_round y)%Z.
Proof.
  intros Hxy.
  pose proof (Qfloor_resp_le _ _ Hxy) as Hf.
  destruct (py_round_cases x) as (Hx1 & Hx2 & Hx).
  destruct (py_round_cases y) as (Hy1 & Hy2 & Hy).
  destruct (Z.eq_dec (Qfloor x) (Qfloor y)) as [E|NE].
  - rewrite <- E in *.
    destruct Hx as [[Hx ->]|[[Hx ->]|[Hx ->]]], Hy as [[Hy ->]|[[Hy ->]|[Hy ->]]];
      try lra; destruct (Z.even (Qfloor x)); lia.
  - assert (Hlt : (Qfloor x + 1 <= Qfloor y)%Z) by lia.
    assert (Hrx : (py_round x <= Qfloor x + 1)%Z).
    { destruct Hx as [[_ ->]|[[_ ->]|[_ ->]]]; try destruct (Z.even (Qfloor x)); lia. }
    assert (Hry : (Qfloor y <= py_round y)%Z).
    { destruct Hy as [[_ ->]|[[_ ->]|[_ ->]]]; try destruct (Z.even (Qfloor y)); lia. }
    lia.
Qed.

Lemma py_round_nonneg (x : Q) : (0 <= x)%Q -> (0 <= py_round x)%Z.
Proof. intros H. apply (py_round_mono H). Qed.

Lemma py_round_nearest (x : Q) :
  (Qabs (x - inject_Z (py_round x)) <= 1 # 2)%Q
  /\ ((Qabs (x - inject_Z (py_round x)) == 1 # 2)%Q -> Z.even (py_round x) = true).
Proof.
  destruct (py_round_cases x) as (H1 & H2 & H).
  destruct H as [[H ->]|[[H E]|[H ->]]].
  - split.
    + apply Qabs_Qle_condition. split; lra.
    + intros A. rewrite Qabs_pos in A by lra. lra.
  - destruct (Z.even (Qfloor x)) eqn:Ev; rewrite E.
    + split; [apply Qabs_Qle_condition; split; lra|intros _; exact Ev].
    + split.
      * rewrite inject_Z_plus. change (inject_Z 1) with 1%Q.
        apply Qabs_Qle_condition. split; lra.
      * intros _. rewrite Z.even_add, Ev. reflexivity.
  - rewrite inject_Z_plus. change (inject_Z 1) with 1%Q. split.
    + apply Qabs_Qle_condition. split; lra.
    + intros A. rewrite Qabs_neg in A by lra. lra.
Qed.

(** ** Floats *)

Unset Implicit Arguments.

Section Binary64.

Local Open Scope Q_scope.

Lemma py_round_proper (x y : Q) : x == y -> py_round x = py_round y.
Proof.
  intros H. apply Z.le_antisymm; apply py_round_mono; rewrite H; apply Qle_refl.
Qed.

Lemma py_round_Z (z : Z) : py_round (inject_Z z) = z.
Proof.
  unfold py_round. rewrite Qfloor_Z.
  destruct (Qcompare_spec (inject_Z z - inject_Z z) (1 # 2)) as [E|E|E];
    [lra|reflexivity|lra].
Qed.

Lemma two_pow_pos (e : Z) : 0 < 2 ^ e.
Proof. now apply Qpower_0_lt. Qed.

Lemma two_pow_plus (a b : Z) : 2 ^ (a + b) == 2 ^ a * 2 ^ b.
Proof. now apply Qpower_plus. Qed.

Lemma two_pow_le (a b : Z) : (a <= b)%Z -> 2 ^ a <= 2 ^ b.
Proof. intros H. apply Qpower_le_compat_l; [exact H|discriminate]. Qed.

Lemma two_pow_lt_inv (a b : Z) : 2 ^ a < 2 ^ b -> (a < b)%Z.
Proof. intros H. apply (Qpower_lt_compat_l_inv 2); [exact H|reflexivity]. Qed.

Lemma two_pow_Z (n : Z) : (0 <= n)%Z -> inject_Z (2 ^ n) == 2 ^ n.
Proof. intros H. now rewrite Zpower_Qpower. Qed.

Lemma round_at_mono (e : Z) (x y : Q) : x <= y -> round_at e x <= round_at e y.
Proof.
  intros H. unfold round_at.
  apply Qmult_le_compat_r; [|apply Qlt_le_weak, two_pow_pos].
  rewrite <- Zle_Qle. apply py_round_mono.
  apply Qmult_le_compat_r; [exact H|].
  apply Qlt_le_weak, Qinv_lt_0_compat, two_pow_pos.
Qed.

Lemma round_at_proper (e : Z) (x y : Q) : x == y -> round_at e x == round_at e y.
Proof.
  intros H. apply Qle_antisym; apply round_at_mono; rewrite H; apply Qle_refl.
Qed.

Lemma round_at_multiple (e e' : Z) (m : Z) :
  (e <= e')%Z -> round_at e (inject_Z m * 2 ^ e') == inject_Z m * 2 ^ e'.
Proof.
  intros H. unfold round_at.
  assert (E : inject_Z m * 2 ^ e' / 2 ^ e == inject_Z (m * 2 ^ (e' - e))).
  { rewrite inject_Z_mult, two_pow_Z by lia.
    replace e' with ((e' - e) + e)%Z at 1 by ring.
    rewrite two_pow_plus. field.
    intros X. pose proof (two_pow_pos e). lra. }
  rewrite (py_round_proper _ _ E), py_round_Z.
  rewrite inject_Z_mult, two_pow_Z by lia.
  replace e' with ((e' - e) + e)%Z at 2 by ring.
  rewrite two_pow_plus. ring.
Qed.

Lemma round_at_zero (e : Z) : round_at e 0 == 0.
Proof.
  rewrite (round_at_proper e 0 (inject_Z 0 * 2 ^ e)) by ring.
  rewrite round_at_multiple by lia. ring.
Qed.

Lemma binary64_round_at (x : Q) : binary64 x == round_at (ulp_exponent x) x.
Proof.
  unfold binary64. destruct (Qnum x) eqn:E; try apply Qred_correct.
  assert (Z : x == 0) by (destruct x; cbn in E; subst; reflexivity).
  rewrite (round_at_proper _ x 0 Z). symmetry. apply round_at_zero.
Qed.

Lemma ilog2_spec (x : Q) :
  ~ x == 0 -> 2 ^ ilog2 x <= Qabs x /\ Qabs x < 2 ^ (ilog2 x + 1).
Proof.
  intros Hx. destruct x as [n d]. unfold ilog2. cbn [Qnum Qden Qabs].
  assert (Hp : (0 < Z.abs n)%Z).
  { assert (n <> 0)%Z; [|lia]. intros ->. apply Hx. reflexivity. }
  set (p := Z.abs n) in *. set (q := Z.pos d).
  assert (Hq : (0 < q)%Z) by (subst q; lia).
  pose proof (Z.log2_spec p Hp) as [Hp1 Hp2].
  pose proof (Z.log2_spec q Hq) as [Hq1 Hq2].
  pose proof (Z.log2_nonneg p) as Ha. pose proof (Z.log2_nonneg q) as Hb.
  set (a := Z.log2 p) in *. set (b := Z.log2 q) in *.
  rewrite Z.pow_succ_r in Hp2, Hq2 by assumption.
  assert (Pa : (0 < 2 ^ a)%Z) by (apply Z.pow_pos_nonneg; lia).
  assert (Pb : (0 < 2 ^ b)%Z) by (apply Z.pow_pos_nonneg; lia).
  assert (Hpq : p # d == inject_Z p / inject_Z q).
  { subst q. rewrite (Qmake_Qdiv p d). reflexivity. }
  assert (K : forall k : Z, 2 ^ (a - b + k) == inject_Z (2 ^ a) / inject_Z (2 ^ b) * 2 ^ k).
  { intros k. rewrite !two_pow_plus.
    replace (a - b)%Z with (a + - b)%Z by ring.
    rewrite two_pow_plus, Qpower_opp, !two_pow_Z by lia. reflexivity. }
  assert (Qa : 0 < inject_Z (2 ^ a)) by (change 0 with (inject_Z 0); now rewrite <- Zlt_Qlt).
  assert (Qb : 0 < inject_Z (2 ^ b)) by (change 0 with (inject_Z 0); now rewrite <- Zlt_Qlt).
  assert (Qq : 0 < inject_Z q) by (change 0 with (inject_Z 0); now rewrite <- Zlt_Qlt).
  assert (L : forall u v : Z, (0 < v)%Z ->
     (inject_Z (2 ^ a) / inject_Z (2 ^ b) * (inject_Z u / inject_Z v) <= inject_Z p / inject_Z q
      <-> (2 ^ a * u * q <= p * 2 ^ b * v)%Z)
     /\ (inject_Z p / inject_Z q < inject_Z (2 ^ a) / inject_Z (2 ^ b) * (inject_Z u / inject_Z v)
      <-> (p * 2 ^ b * v < 2 ^ a * u * q)%Z)).
  { intros u v Hv.
    assert (Qv : 0 < inject_Z v) by (change 0 with (inject_Z 0); now rewrite <- Zlt_Qlt).
    assert (E1 : inject_Z (2 ^ a) / inject_Z (2 ^ b) * (inject_Z u / inject_Z v)
                 == inject_Z (2 ^ a * u * q) / (inject_Z (2 ^ b) * inject_Z v * inject_Z q)).
    { rewrite !inject_Z_mult. field. repeat split; lra. }
    assert (E2 : inject_Z p / inject_Z q
                 == inject_Z (p * 2 ^ b * v) / (inject_Z (2 ^ b) * inject_Z v * inject_Z q)).
    { rewrite !inject_Z_mult. field. repeat split; lra. }
    assert (D : 0 < inject_Z (2 ^ b) * inject_Z v * inject_Z q).
    { repeat apply Qmult_lt_0_compat; assumption. }
    rewrite E1, E2. split.
    - rewrite Zle_Qle. split; intros H.
      + apply (Qmult_le_r _ _ (/ (inject_Z (2 ^ b) * inject_Z v * inject_Z q)));
          [now apply Qinv_lt_0_compat|exact H].
      + apply (Qmult_le_r _ _ (/ (inject_Z (2 ^ b) * inject_Z v * inject_Z q)));
          [now apply Qinv_lt_0_compat|exact H].
    - rewrite Zlt_Qlt. split; intros H.
      + apply (Qmult_lt_r _ _ (/ (inject_Z (2 ^ b) * inject_Z v * inject_Z q)));
          [now apply Qinv_lt_0_compat|exact H].
      + apply (Qmult_lt_r _ _ (/ (inject_Z (2 ^ b) * inject_Z v * inject_Z q)));
          [now apply Qinv_lt_0_compat|exact H]. }
  rewrite Hpq.
  destruct (Z.leb_spec (q * 2 ^ a) (p * 2 ^ b)) as [T|T].
  - split.
    + replace (a - b)%Z with (a - b + 0)%Z by ring. rewrite K.
      change (2 ^ 0) with (inject_Z 1 / inject_Z 1). apply (L 1%Z 1%Z); lia.
    + rewrite K. change (2 ^ 1) with (inject_Z 2 / inject_Z 1). apply (L 2%Z 1%Z); nia.
  - split.
    + replace (a - b - 1)%Z with (a - b + -1)%Z by ring. rewrite K.
      change (2 ^ (-1)) with (inject_Z 1 / inject_Z 2). apply (L 1%Z 2%Z); nia.
    + replace (a - b - 1 + 1)%Z with (a - b + 0)%Z by ring. rewrite K.
      change (2 ^ 0) with (inject_Z 1 / inject_Z 1). apply (L 1%Z 1%Z); lia.
Qed.

Lemma ilog2_mono (x y : Q) : 0 < x -> x <= y -> (ilog2 x <= ilog2 y)%Z.
Proof.
  intros Hx Hxy.
  destruct (ilog2_spec x) as [X1 _]; [lra|].
  destruct (ilog2_spec y) as [_ Y2]; [lra|].
  rewrite Qabs_pos in X1, Y2 by lra.
  assert (H : 2 ^ ilog2 x < 2 ^ (ilog2 y + 1)) by lra.
  apply two_pow_lt_inv in H. lia.
Qed.

Lemma binary64_nonneg (x : Q) : 0 <= x -> 0 <= binary64 x.
Proof.
  intros H. rewrite binary64_round_at, <- (round_at_zero (ulp_exponent x)).
  now apply round_at_mono.
Qed.

Lemma binary64_nonpos (x : Q) : x <= 0 -> binary64 x <= 0.
Proof.
  intros H. rewrite binary64_round_at, <- (round_at_zero (ulp_exponent x)).
  now apply round_at_mono.
Qed.

Lemma binary64_mono (x y : Q) : 0 <= x -> x <= y -> binary64 x <= binary64 y.
Proof.
  intros Hx Hxy.
  destruct (Qlt_le_dec 0 x) as [Px|Zx].
  - rewrite !binary64_round_at.
    pose proof (ilog2_mono x y Px Hxy) as Hl.
    unfold ulp_exponent.
    destruct (Z.eq_dec (Z.max (ilog2 x - 52) (-1074)) (Z.max (ilog2 y - 52) (-1074)))
      as [E|NE].
    + rewrite E. now apply round_at_mono.
    + set (ex := Z.max (ilog2 x - 52) (-1074)) in *.
      set (ey := Z.max (ilog2 y - 52) (-1074)) in *.
      assert (Hey : ey = (ilog2 y - 52)%Z /\ (ex < ey)%Z /\ (ilog2 x + 1 <= ilog2 y)%Z)
        by lia.
      destruct Hey as (Hey & Hlt & Hk).
      destruct (ilog2_spec x) as [_ X2]; [lra|].
      destruct (ilog2_spec y) as [Y1 _]; [lra|].
      rewrite Qabs_pos in X2, Y1 by lra.
      pose proof (two_pow_le _ _ Hk) as Hb.
      assert (B1 : round_at ex x <= 2 ^ ilog2 y).
      { rewrite <- (Qmult_1_l (2 ^ ilog2 y)). change 1 with (inject_Z 1).
        rewrite <- (round_at_multiple ex (ilog2 y) 1) by lia.
        apply round_at_mono. change (inject_Z 1) with 1. lra. }
      assert (B2 : 2 ^ ilog2 y <= round_at ey y).
      { rewrite <- (Qmult_1_l (2 ^ ilog2 y)). change 1 with (inject_Z 1).
        rewrite <- (round_at_multiple ey (ilog2 y) 1) by lia.
        apply round_at_mono. change (inject_Z 1) with 1. lra. }
      lra.
  - assert (E : binary64 x <= 0).
    { rewrite binary64_round_at, <- (round_at_zero (ulp_exponent x)).
      now apply round_at_mono. }
    pose proof (binary64_nonneg y). lra.
Qed.


Lemma ilog2_unique (x : Q) (k : Z) :
  ~ x == 0 -> 2 ^ k <= Qabs x -> Qabs x < 2 ^ (k + 1) -> ilog2 x = k.
Proof.
  intros Hx H1 H2. destruct (ilog2_spec x Hx) as [S1 S2].
  assert (A : 2 ^ k < 2 ^ (ilog2 x + 1)) by lra.
  assert (B : 2 ^ ilog2 x < 2 ^ (k + 1)) by lra.
  apply two_pow_lt_inv in A, B. lia.
Qed.

Lemma binary64_zero (x : Q) : x == 0 -> binary64 x == 0.
Proof.
  intros H. rewrite binary64_round_at.
  rewrite (round_at_proper _ x 0 H). apply round_at_zero.
Qed.

Lemma binary64_compat (x y : Q) : x == y -> binary64 x == binary64 y.
Proof.
  intros H. destruct (Qeq_dec x 0) as [Z|NZ].
  - rewrite (binary64_zero x Z), (binary64_zero y); [reflexivity|].
    now rewrite <- H.
  - assert (NZ' : ~ y == 0) by (now rewrite <- H).
    destruct (ilog2_spec x NZ) as [S1 S2].
    assert (A : Qabs x == Qabs y) by (now rewrite H).
    rewrite A in S1, S2.
    rewrite !binary64_round_at. unfold ulp_exponent.
    rewrite (ilog2_unique y (ilog2 x) NZ' S1 S2).
    now apply round_at_proper.
Qed.

Lemma binary64_exact (x : Q) : is_binary64 x -> binary64 x == x.
Proof.
  intros (m & e & Hm & He & Hx).
  destruct (Qeq_dec x 0) as [Z|NZ]; [now rewrite (binary64_zero x Z), Z|].
  destruct (ilog2_spec x NZ) as [S1 _].
  assert (A : Qabs x == inject_Z (Z.abs m) * 2 ^ e).
  { rewrite Hx, Qabs_Qmult. rewrite (Qabs_pos (2 ^ e)) by apply Qlt_le_weak, two_pow_pos.
    destruct m; reflexivity. }
  assert (B : Qabs x < 2 ^ (53 + e)).
  { rewrite A, two_pow_plus. apply Qmult_lt_compat_r; [apply two_pow_pos|].
    rewrite <- two_pow_Z by lia. now rewrite <- Zlt_Qlt. }
  assert (C : 2 ^ ilog2 x < 2 ^ (53 + e)) by lra.
  apply two_pow_lt_inv in C.
  rewrite binary64_round_at, (round_at_proper _ _ _ Hx).
  rewrite round_at_multiple; [now rewrite Hx|].
  unfold ulp_exponent. lia.
Qed.

(** *** What the rounding returns *)

Lemma py_round_opp_bound (t : Q) (b : Z) :
  Qabs t <= inject_Z b -> (Z.abs (py_round t) <= b)%Z.
Proof.
  intros H. apply Qabs_Qle_condition in H as [H1 H2].
  rewrite <- inject_Z_opp in H1.
  apply py_round_mono in H1, H2. rewrite py_round_Z in H1, H2. lia.
Qed.

(** Among the multiples of [2 ^ e], [round_at e x] is a nearest to [x]. *)
Lemma round_at_nearest (e : Z) (x : Q) (k : Z) :
  Qabs (round_at e x - x) <= Qabs (inject_Z k * 2 ^ e - x).
Proof.
  pose proof (two_pow_pos e) as P.
  set (t := x / 2 ^ e). set (m := py_round t).
  assert (X : x == t * 2 ^ e) by (unfold t; field; lra).
  destruct (py_round_nearest t) as [D _]. fold m in D.
  assert (A : forall z : Z, Qabs (inject_Z z * 2 ^ e - x)
                            == Qabs (inject_Z z - t) * 2 ^ e).
  { intros z. rewrite X at 1.
    setoid_replace (inject_Z z * 2 ^ e - t * 2 ^ e) with ((inject_Z z - t) * 2 ^ e)
      by ring.
    rewrite Qabs_Qmult, (Qabs_pos (2 ^ e)) by lra. reflexivity. }
  unfold round_at. fold t m. rewrite !A.
  apply Qmult_le_compat_r; [|lra].
  assert (D' : Qabs (inject_Z m - t) <= 1 # 2).
  { rewrite Qabs_Qminus. exact D. }
  destruct (Z.eq_dec k m) as [->|NE]; [apply Qle_refl|].
  apply Qabs_Qle_condition in D' as [D1 D2].
  destruct (Z_lt_le_dec k m) as [L|L].
  - assert (K : (k + 1 <= m)%Z) by lia.
    rewrite Zle_Qle, inject_Z_plus in K. change (inject_Z 1) with 1 in K.
    rewrite (Qabs_neg (inject_Z k - t)) by lra.
    apply Qabs_Qle_condition. split; lra.
  - assert (K : (m + 1 <= k)%Z) by lia.
    rewrite Zle_Qle, inject_Z_plus in K. change (inject_Z 1) with 1 in K.
    rewrite (Qabs_pos (inject_Z k - t)) by lra.
    apply Qabs_Qle_condition. split; lra.
Qed.

Lemma ulp_exponent_low (x : Q) : (-1074 <= ulp_exponent x)%Z.
Proof. unfold ulp_exponent. lia. Qed.

Lemma ulp_exponent_normal (x : Q) :
  (-1074 < ulp_exponent x)%Z -> ulp_exponent x = (ilog2 x - 52)%Z.
Proof. unfold ulp_exponent. lia. Qed.

Lemma multiple_of_finer (e e' m : Z) :
  (e <= e')%Z -> inject_Z m * 2 ^ e' == inject_Z (m * 2 ^ (e' - e)) * 2 ^ e.
Proof.
  intros H. rewrite inject_Z_mult, two_pow_Z by lia.
  replace e' with ((e' - e) + e)%Z at 1 by ring.
  rewrite two_pow_plus. ring.
Qed.

(** [binary64 x] is a nearest to [x] among the binary64 numbers. *)
Lemma binary64_nearest (x y : Q) :
  is_binary64 y -> Qabs (binary64 x - x) <= Qabs (y - x).
Proof.
  intros (m' & e' & Hm & He & Hy).
  destruct (Qeq_dec x 0) as [Z|NZ].
  { rewrite (binary64_zero x Z), Z.
    setoid_replace (0 - 0) with 0 by ring. apply Qabs_nonneg. }
  rewrite binary64_round_at. set (e := ulp_exponent x).
  destruct (Z_le_gt_dec e e') as [L|G].
  - rewrite Hy, (multiple_of_finer e e' m' L). apply round_at_nearest.
  - assert (En : e = (ilog2 x - 52)%Z) by (apply ulp_exponent_normal; fold e; lia).
    destruct (ilog2_spec x NZ) as [S1 _].
    replace (ilog2 x) with (e + 52)%Z in S1 by lia.
    assert (Y : Qabs y < 2 ^ (e + 52)).
    { apply Qlt_le_trans with (2 ^ (53 + e')); [|apply two_pow_le; lia].
      rewrite Hy, Qabs_Qmult, (Qabs_pos (2 ^ e'))
        by apply Qlt_le_weak, two_pow_pos.
      rewrite two_pow_plus. apply Qmult_lt_compat_r; [apply two_pow_pos|].
      rewrite <- two_pow_Z by lia.
      assert (A : Qabs (inject_Z m') == inject_Z (Z.abs m')) by (destruct m'; reflexivity).
      rewrite A. now rewrite <- Zlt_Qlt. }
    assert (B : 2 ^ (e + 52) == inject_Z (2 ^ 52) * 2 ^ e).
    { rewrite two_pow_plus, two_pow_Z by lia. ring. }
    apply Qabs_Qlt_condition in Y as [Y1 Y2].
    destruct (Qlt_le_dec 0 x) as [Px|Nx].
    + rewrite Qabs_pos in S1 by lra.
      apply Qle_trans with (Qabs (inject_Z (2 ^ 52) * 2 ^ e - x));
        [apply round_at_nearest|].
      rewrite <- B. rewrite (Qabs_neg (2 ^ (e + 52) - x)) by lra.
      rewrite (Qabs_neg (y - x)) by lra. lra.
    + assert (Nx' : x < 0).
      { destruct (Qlt_le_dec x 0) as [N|P]; [exact N|]. exfalso. apply NZ. lra. }
      rewrite Qabs_neg in S1 by lra.
      apply Qle_trans with (Qabs (inject_Z (- 2 ^ 52) * 2 ^ e - x));
        [apply round_at_nearest|].
      rewrite inject_Z_opp.
      setoid_replace (- inject_Z (2 ^ 52) * 2 ^ e - x)
        with (- 2 ^ (e + 52) - x) by (rewrite B; ring).
      rewrite (Qabs_pos (- 2 ^ (e + 52) - x)) by lra.
      rewrite (Qabs_pos (y - x)) by lra. lra.
Qed.

(** Within the range, [binary64 x] is a binary64 number. *)
Lemma binary64_finite (x : Q) : in_range (binary64 x) -> is_binary64 (binary64 x).
Proof.
  unfold in_range. intros R.
  destruct (Qeq_dec x 0) as [Z|NZ].
  { exists 0%Z, 0%Z. split; [reflexivity|]. split; [lia|].
    rewrite (binary64_zero x Z). reflexivity. }
  rewrite binary64_round_at in R. set (e := ulp_exponent x) in *.
  pose proof (ulp_exponent_low x) as Elow. fold e in Elow.
  pose proof (two_pow_pos e) as P.
  set (t := x / 2 ^ e). set (m := py_round t).
  assert (Hr : round_at e x == inject_Z m * 2 ^ e) by reflexivity.
  destruct (ilog2_spec x NZ) as [S1 S2].
  assert (T : Qabs x == Qabs t * 2 ^ e).
  { unfold t. unfold Qdiv. rewrite Qabs_Qmult, Qabs_Qinv, (Qabs_pos (2 ^ e)) by lra.
    field. lra. }
  assert (Tup : Qabs t <= inject_Z (2 ^ 53)).
  { apply Qlt_le_weak. rewrite two_pow_Z by lia.
    apply (Qmult_lt_r _ _ (2 ^ e) P). rewrite <- T, <- two_pow_plus.
    apply Qlt_le_trans with (2 ^ (ilog2 x + 1)); [exact S2|].
    apply two_pow_le. unfold e, ulp_exponent. lia. }
  pose proof (py_round_opp_bound t (2 ^ 53) Tup) as Mup. fold m in Mup.
  assert (Rm : Qabs (round_at e x) == inject_Z (Z.abs m) * 2 ^ e).
  { rewrite Hr, Qabs_Qmult, (Qabs_pos (2 ^ e)) by lra. destruct m; reflexivity. }
  rewrite Rm in R.
  destruct (Z.eq_dec (Z.abs m) (2 ^ 53)) as [Top|NotTop].
  - rewrite Top in R. rewrite two_pow_Z, <- two_pow_plus in R by lia.
    apply two_pow_lt_inv in R.
    exists (m / 2)%Z, (e + 1)%Z. split; [|split; [lia|]].
    + assert (m = 2 ^ 53 \/ m = - 2 ^ 53)%Z as [-> | ->] by lia; reflexivity.
    + rewrite binary64_round_at. fold e. rewrite Hr, two_pow_plus.
      assert (M : inject_Z m == inject_Z (m / 2) * 2 ^ 1).
      { assert (m = 2 ^ 53 \/ m = - 2 ^ 53)%Z as [-> | ->] by lia; reflexivity. }
      rewrite M. ring.
  - destruct (Z_le_gt_dec e 971) as [L|G].
    + exists m, e. split; [lia|]. split; [lia|].
      rewrite binary64_round_at. exact Hr.
    + exfalso.
      assert (En : e = (ilog2 x - 52)%Z) by (apply ulp_exponent_normal; fold e; lia).
      replace (ilog2 x) with (e + 52)%Z in S1 by lia.
      assert (Tlow : inject_Z (2 ^ 52) <= Qabs t).
      { rewrite two_pow_Z by lia.
        apply (Qmult_le_r _ _ (2 ^ e) P). rewrite <- T, <- two_pow_plus.
        now replace (52 + e)%Z with (e + 52)%Z by ring. }
      assert (Mlow : (2 ^ 52 <= Z.abs m)%Z).
      { destruct (Qlt_le_dec t 0) as [N|Pt].
        - rewrite Qabs_neg in Tlow by lra.
          assert (A : t <= inject_Z (- 2 ^ 52)) by (rewrite inject_Z_opp; lra).
          apply py_round_mono in A. rewrite py_round_Z in A. fold m in A. lia.
        - rewrite Qabs_pos in Tlow by lra.
          apply py_round_mono in Tlow. rewrite py_round_Z in Tlow. fold m in Tlow. lia. }
      assert (Big : 2 ^ 1024 <= inject_Z (Z.abs m) * 2 ^ e).
      { apply Qle_trans with (inject_Z (2 ^ 52) * 2 ^ e).
        - rewrite two_pow_Z, <- two_pow_plus by lia. apply two_pow_le. lia.
        - apply Qmult_le_compat_r; [|lra]. now rewrite <- Zle_Qle. }
      lra.
Qed.

(** A tie between two neighbours goes to the one with the even significand. *)
Lemma binary64_ties_to_even (x : Q) :
  let e := ulp_exponent x in
  let m := py_round (x / 2 ^ e) in
  binary64 x == inject_Z m * 2 ^ e
  /\ (Qabs (x - binary64 x) == (1 # 2) * 2 ^ e -> Z.even m = true).
Proof.
  intros e m. pose proof (two_pow_pos e) as P.
  assert (E : binary64 x == inject_Z m * 2 ^ e) by apply binary64_round_at.
  split; [exact E|]. intros H. rewrite E in H.
  destruct (py_round_nearest (x / 2 ^ e)) as [_ Tie]. fold m in Tie.
  apply Tie.
  apply (Qmult_inj_r _ _ (2 ^ e)); [lra|]. rewrite <- H.
  rewrite <- (Qabs_pos (2 ^ e)) at 2 by lra. rewrite <- Qabs_Qmult.
  apply Qabs_wd. field. lra.
Qed.

(** *** The products of compute_meeting_cost *)

Lemma float_of_nat_nonneg (n : nat) : (0 <= float_of_int (Z.of_nat n)).
Proof.
  unfold float_of_int.
  apply binary64_nonneg. change 0 with (inject_Z 0). rewrite <- Zle_Qle. lia.
Qed.

Lemma float_of_nat_mono (m n : nat) :
  (m <= n)%nat -> (float_of_int (Z.of_nat m) <= float_of_int (Z.of_nat n)).
Proof.
  intros H. unfold float_of_int. apply binary64_mono.
  - change 0 with (inject_Z 0). rewrite <- Zle_Qle. lia.
  - rewrite <- Zle_Qle. lia.
Qed.

Lemma fmul_nonneg (x y : Q) : (0 <= x) -> (0 <= y) -> (0 <= fmul x y).
Proof.
  intros Hx Hy. unfold fmul. apply binary64_nonneg. now apply Qmult_le_0_compat.
Qed.

Lemma fmul_mono_r (x y y' : Q) :
  (0 <= x) -> (0 <= y) -> (y <= y') -> (fmul x y <= fmul x y').
Proof.
  intros Hx Hy H. unfold fmul. apply binary64_mono.
  - now apply Qmult_le_0_compat.
  - rewrite !(Qmult_comm x). now apply Qmult_le_compat_r.
Qed.

Lemma fmul_mono_l (x x' y : Q) :
  (0 <= x) -> (x <= x') -> (0 <= y) -> (fmul x y <= fmul x' y).
Proof.
  intros Hx H Hy. unfold fmul. apply binary64_mono.
  - now apply Qmult_le_0_compat.
  - now apply Qmult_le_compat_r.
Qed.

Lemma product_nonneg (hours rate : Q) (n : nat) :
  (0 <= hours) -> (0 <= rate) ->
  (0 <= fmul (fmul hours (float_of_int (Z.of_nat n))) rate).
Proof.
  intros Hh Hr. apply fmul_nonneg; [|exact Hr].
  apply fmul_nonneg; [exact Hh|]. apply float_of_nat_nonneg.
Qed.

Lemma cost_nonneg (hours rate : Q) (n : nat) :
  (0 <= hours) -> (0 <= rate) ->
  (0 <= py_round (fmul (fmul hours (float_of_int (Z.of_nat n))) rate))%Z.
Proof.
  intros Hh Hr. apply py_round_nonneg. apply product_nonneg; assumption.
Qed.

Lemma cost_le (hours rate : Q) (n m : nat) :
  (0 <= hours) -> (0 <= rate) -> (m <= n)%nat ->
  (py_round (fmul (fmul hours (float_of_int (Z.of_nat m))) rate)
   <= py_round (fmul (fmul hours (float_of_int (Z.of_nat n))) rate))%Z.
Proof.
  intros Hh Hr Hmn. apply py_round_mono.
  pose proof (float_of_nat_nonneg m) as Hm.
  apply fmul_mono_l; [now apply fmul_nonneg| |exact Hr].
  apply fmul_mono_r; [exact Hh|exact Hm|now apply float_of_nat_mono].
Qed.

Lemma exact_product (h k : Q) (n : Z) :
  is_binary64 (inject_Z n) -> is_binary64 (h * inject_Z n) ->
  is_binary64 (h * inject_Z n * k) ->
  fmul (fmul h (float_of_int n)) k == h * inject_Z n * k.
Proof.
  intros Hn Hp Hq.
  assert (E1 : fmul h (float_of_int n) == h * inject_Z n).
  { unfold fmul, float_of_int.
    rewrite (binary64_compat (h * binary64 (inject_Z n)) (h * inject_Z n)).
    - now apply binary64_exact.
    - now rewrite (binary64_exact _ Hn). }
  unfold fmul at 1.
  rewrite (binary64_compat (fmul h (float_of_int n) * k) (h * inject_Z n * k)).
  - now apply binary64_exact.
  - now rewrite E1.
Qed.

End Binary64.

Set Implicit Arguments.

Lemma event_duration_hours_nonneg (ev : Event) : (0 <= event_duration_hours ev)%Q.
Proof.
  unfold event_duration_hours.
  destruct (dateTime (start ev)), (dateTime (end_ ev)); try lra.
  unfold fdiv. apply binary64_nonneg.
  apply Qle_shift_div_l; [reflexivity|]. rewrite Qmult_0_l. apply Q.le_max_l.
Qed.

(** A difference of one microsecond or more lasts a positive number of
    hours: the two roundings do not take it to zero. *)
Lemma positive_duration_hours (microseconds : Z) :
  (0 < microseconds)%Z ->
  (0 < fdiv (Qmax 0 (total_seconds microseconds)) 3600)%Q.
Proof.
  intros H.
  assert (S : (binary64 (1 / 1000000) <= total_seconds microseconds)%Q).
  { unfold total_seconds, truediv. apply binary64_mono; [discriminate|].
    apply Qmult_le_compat_r; [|discriminate].
    change 1%Q with (inject_Z 1). rewrite <- Zle_Qle. lia. }
  assert (P : (0 < binary64 (1 / 1000000))%Q) by (vm_compute; reflexivity).
  assert (M : (Qmax 0 (total_seconds microseconds) == total_seconds microseconds)%Q).
  { apply Q.max_r. lra. }
  assert (L : (binary64 (binary64 (1 / 1000000) / 3600)
               <= fdiv (Qmax 0 (total_seconds microseconds)) 3600)%Q).
  { unfold fdiv. apply binary64_mono.
    - apply Qle_shift_div_l; [reflexivity|]. rewrite Qmult_0_l. lra.
    - apply Qmult_le_compat_r; [|discriminate]. rewrite M. exact S. }
  assert (C : (0 < binary64 (binary64 (1 / 1000000) / 3600))%Q)
    by (vm_compute; reflexivity).
  lra.
Qed.

Lemma no_duration_hours (microseconds : Z) :
  (microseconds <= 0)%Z ->
  (fdiv (Qmax 0 (total_seconds microseconds)) 3600 == 0)%Q.
Proof.
  intros H.
  assert (S : (total_seconds microseconds <= 0)%Q).
  { unfold total_seconds, truediv. apply binary64_nonpos.
    apply Qle_shift_div_r; [reflexivity|]. rewrite Qmult_0_l.
    change 0%Q with (inject_Z 0). rewrite <- Zle_Qle. exact H. }
  unfold fdiv. apply binary64_zero. rewrite Q.max_l by exact S. reflexivity.
Qed.

(** The duration is positive exactly for a timed event whose end follows
    its start. *)
Lemma positive_duration_iff (ev : Event) :
  (0 < event_duration_hours ev)%Q
  <-> exists s e, dateTime (start ev) = Some s /\ dateTime (end_ ev) = Some e
                  /\ (s < e)%Z.
Proof.
  unfold event_duration_hours. split.
  - destruct (dateTime (start ev)) as [s|], (dateTime (end_ ev)) as [e|];
      intros H; try (exfalso; lra).
    exists s, e. repeat split.
    destruct (Z_lt_le_dec s e) as [L|L]; [exact L|exfalso].
    rewrite (@no_duration_hours (e - s)) in H by lia. lra.
  - intros (s & e & -> & -> & L). apply positive_duration_hours. lia.
Qed.

Lemma filter_all_length {A} (f : A -> bool) (l : list A) :
  length (filter f l) = length l <-> forall a, In a l -> f a = true.
Proof.
  induction l as [|x l IH]; simpl; [tauto|].
  pose proof (filter_length_le f l) as Hle.
  destruct (f x) eqn:E; simpl.
  - split.
    + intros H a [<-|Ha]; [exact E|]. apply IH; [lia|exact Ha].
    + intros H. f_equal. apply IH. auto.
  - split; [lia|]. intros H. rewrite H in E; [discriminate|now left].
Qed.

Lemma compute_meeting_cost_decision config ev rate :
  Decision config ev rate (compute_meeting_cost config ev rate).
Proof.
  unfold compute_meeting_cost.
  destruct (Qle_bool (event_duration_hours ev) 0) eqn:Hh.
  { apply D_no_duration. now apply Qle_bool_iff. }
  assert (Hpos : (0 < event_duration_hours ev)%Q).
  { apply Qnot_le_lt. intros H. apply Qle_bool_iff in H. congruence. }
  destruct (internal_only config
            && negb (length (internal_attendees config ev)
                     =? length (listed_attendees ev))%nat) eqn:Hm.
  { apply andb_true_iff in Hm as [Hio Hne]. apply negb_true_iff, Nat.eqb_neq in Hne.
    now apply D_mixed. }
  assert (Hall : internal_only config = false
     \/ length (internal_attendees config ev) = length (listed_attendees ev)).
  { apply andb_false_iff in Hm as [Hm|Hm]; [now left|right].
    now apply negb_false_iff, Nat.eqb_eq in Hm. }
  destruct (length (internal_attendees config ev) =? 0)%nat eqn:H0.
  { apply Nat.eqb_eq in H0. now apply D_no_internal. }
  destruct (length (internal_attendees config ev) =? 1)%nat eqn:H1.
  { apply Nat.eqb_eq in H1. now apply D_solo. }
  apply Nat.eqb_neq in H0, H1.
  destruct (length (effective_attendees config ev) =? 0)%nat eqn:E0.
  { apply Nat.eqb_eq in E0. apply D_all_declined; auto; lia. }
  destruct (length (effective_attendees config ev) =? 1)%nat eqn:E1.
  { apply Nat.eqb_eq in E1. apply D_effective_solo; auto; lia. }
  apply Nat.eqb_neq in E0, E1.
  apply D_costed; auto; lia.
Qed.

(** ** compute_meeting_cost *)

Lemma costed_inv config ev rate :
  skip_reason (compute_meeting_cost config ev rate) = None ->
  (0 < event_duration_hours ev)%Q
  /\ (internal_only config = false
      \/ length (internal_attendees config ev) = length (listed_attendees ev))
  /\ (2 <= length (internal_attendees config ev))%nat
  /\ (2 <= length (effective_attendees config ev))%nat
  /\ compute_meeting_cost config ev rate =
      {| invited_cost :=
           py_round (fmul (fmul (event_duration_hours ev)
                                 (float_of_int
                                    (Z.of_nat (length (internal_attendees config ev)))))
                           (rate_used config rate));
         effective_cost :=
           py_round (fmul (fmul (event_duration_hours ev)
                                 (float_of_int
                                    (Z.of_nat (length (effective_attendees config ev)))))
                           (rate_used config rate));
         invited_count := Some (Z.of_nat (length (internal_attendees config ev)));
         effective_count := Some (Z.of_nat (length (effective_attendees config ev)));
         hours := Some (event_duration_hours ev);
         skip_reason := None |}.
Proof.
  intros H. destruct (compute_meeting_cost_decision config ev rate);
    try discriminate H. auto.
Qed.

(** C1 (amended): for a non-negative hourly rate, every qualifying result has
    [effective_count <= invited_count <=] the number of attendees with a
    non-empty e-mail address and [effective_cost <= invited_cost], and equal
    counts give equal costs.  (Equal costs do not give equal counts: both
    costs are rounded.) *)
Theorem effective_within_invited config ev rate :
  (0 <= rate_used config rate)%Q ->
  skip_reason (compute_meeting_cost config ev rate) = None ->
  let r := compute_meeting_cost config ev rate in
  exists invited effective : Z,
    invited_count r = Some invited /\ effective_count r = Some effective
    /\ (effective <= invited)%Z
    /\ (invited <= Z.of_nat (length (listed_attendees ev)))%Z
    /\ (effective_cost r <= invited_cost r)%Z
    /\ (effective = invited -> effective_cost r = invited_cost r).
Proof.
  intros Hrate Hq r. subst r.
  destruct (costed_inv _ _ _ Hq) as (Hh & _ & _ & _ & ->). simpl.
  pose proof (filter_length_le is_effective (internal_attendees config ev)) as H1.
  pose proof (filter_length_le (fun a => internal_email config (email_of a))
                (listed_attendees ev)) as H2.
  fold (effective_attendees config ev) in H1.
  fold (internal_attendees config ev) in H2.
  eexists _, _. repeat split; try reflexivity; try lia.
  - apply cost_le; auto. lra.
  - intros E. apply Nat2Z.inj in E. now rewrite E.
Qed.

(** C1 as stated fails twice.  A ten-second meeting of three internal
    attendees, one of whom declined, costs 1 both ways at the default rate:
    equal costs, unequal counts.  And at an hourly rate of -125 the
    effective cost of a one-hour meeting exceeds the invited cost. *)
Lemma equal_costs_unequal_counts :
  (let r := compute_meeting_cost default_config ten_seconds None in
   skip_reason r = None
   /\ effective_cost r = invited_cost r
   /\ effective_count r <> invited_count r)
  /\ (let r := compute_meeting_cost default_config one_hour_one_declined
                 (Some (-125)%Q) in
      skip_reason r = None /\ (invited_cost r < effective_cost r)%Z).
Proof. vm_compute. repeat split; congruence. Qed.

(** The hypotheses of C1 hold for a one-hour meeting with one decline. *)
Lemma effective_within_invited_witness :
  let r := compute_meeting_cost default_config one_hour_one_declined None in
  exists invited effective : Z,
    invited_count r = Some invited /\ effective_count r = Some effective
    /\ (effective <= invited)%Z
    /\ (invited <= Z.of_nat (length (listed_attendees one_hour_one_declined)))%Z
    /\ (effective_cost r <= invited_cost r)%Z
    /\ (effective = invited -> effective_cost r = invited_cost r).
Proof.
  apply (@effective_within_invited default_config one_hour_one_declined None).
  - vm_compute. discriminate.
  - reflexivity.
Defined.




Lemma decision_unique config ev rate (x : CostInfo) :
  Decision config ev rate x -> compute_meeting_cost config ev rate = x.
Proof.
  intros D. pose proof (compute_meeting_cost_decision config ev rate) as C.
  destruct D, C; try reflexivity; try lra; try lia;
    repeat match goal with
           | H : _ \/ _ |- _ => destruct H
           end; try congruence; try lia.
Qed.

Lemma some_external config ev :
  length (internal_attendees config ev) <> length (listed_attendees ev)
  <-> exists a, In a (listed_attendees ev)
                /\ internal_email config (email_of a) = false.
Proof.
  unfold internal_attendees. split.
  - intros H.
    destruct (forallb (fun a => internal_email config (email_of a))
                (listed_attendees ev)) eqn:E.
    + exfalso. apply H. apply filter_all_length.
      rewrite forallb_forall in E. exact E.
    + assert (X : existsb (fun a => negb (internal_email config (email_of a)))
                    (listed_attendees ev) = true).
      { clear H. induction (listed_attendees ev) as [|a l IH]; simpl in *;
          [discriminate|].
        destruct (internal_email config (email_of a)); simpl in *; auto. }
      apply existsb_exists in X as (a & Ha & Hn).
      exists a. split; [exact Ha|]. now apply negb_true_iff.
  - intros (a & Ha & Hn) H.
    pose proof (proj1 (filter_all_length _ _) H a Ha) as H'. simpl in H'.
    congruence.
Qed.

Lemma filter_none_length {A} (f : A -> bool) (l : list A) :
  length (filter f l) = 0%nat <-> forall a, In a l -> f a = false.
Proof.
  induction l as [|x l IH]; simpl; [tauto|].
  destruct (f x) eqn:E; simpl.
  - split; [discriminate|]. intros H. rewrite H in E; [discriminate|now left].
  - rewrite IH. split.
    + intros H a [<-|Ha]; auto.
    + intros H a Ha. apply H. now right.
Qed.

(** *** The classification of the attendees, from the fields *)

Lemma has_address_spec (a : Attendee) (e : str) :
  has_address a e <-> has_email a = true /\ email a = Some e.
Proof.
  unfold has_address, has_email. split.
  - intros [E Hne]. rewrite E. split; [|reflexivity].
    destruct e; [now contradiction Hne|reflexivity].
  - intros [H E]. rewrite E in H. split; [exact E|]. intros ->. discriminate H.
Qed.

Lemma internal_attendee_spec config (a : Attendee) :
  internal_attendee config a
  <-> has_email a && internal_email config (email_of a) = true.
Proof.
  unfold internal_attendee. rewrite andb_true_iff. split.
  - intros (e & He & Hi). apply has_address_spec in He as [H E].
    split; [exact H|]. unfold email_of. now rewrite E.
  - intros [H Hi]. unfold has_email, email_of in *.
    destruct (email a) as [e|] eqn:E; [|discriminate].
    exists e. split; [|exact Hi]. apply has_address_spec.
    unfold has_email. now rewrite E.
Qed.

Lemma external_attendee_spec config (a : Attendee) :
  external_attendee config a
  <-> has_email a = true /\ internal_email config (email_of a) = false.
Proof.
  unfold external_attendee. split.
  - intros (e & He & Hi). apply has_address_spec in He as [H E].
    split; [exact H|]. unfold email_of. now rewrite E.
  - intros [H Hi]. unfold has_email, email_of in *.
    destruct (email a) as [e|] eqn:E; [|discriminate].
    exists e. split; [|exact Hi]. apply has_address_spec.
    unfold has_email. now rewrite E.
Qed.

Lemma answered_spec (word : string) (a : Attendee) :
  no_upper (lit word) = true ->
  answered word a <-> str_eqb (lower (response a)) (lit word) = true.
Proof.
  intros Hw. unfold answered.
  rewrite eq_ignoring_case_lower, str_eqb_eq.
  apply lower_fixed in Hw. now rewrite Hw.
Qed.

Lemma is_effective_spec (a : Attendee) :
  is_effective a = true
  <-> answered "accepted" a \/ answered "tentative" a \/ answered "needsaction" a.
Proof.
  rewrite !answered_spec by reflexivity.
  unfold is_effective. fold (response a). cbn [existsb].
  rewrite orb_false_r, !orb_true_iff. tauto.
Qed.

Lemma declined_not_effective (a : Attendee) :
  answered "declined" a -> is_effective a = false.
Proof.
  intros H. apply answered_spec in H; [|reflexivity]. apply str_eqb_eq in H.
  unfold is_effective. fold (response a). now rewrite H.
Qed.

Lemma effective_attendee_spec config (a : Attendee) :
  effective_attendee config a
  <-> (has_email a && internal_email config (email_of a)) && is_effective a = true.
Proof.
  unfold effective_attendee.
  rewrite andb_true_iff, <- internal_attendee_spec, is_effective_spec. tauto.
Qed.

Lemma counted_filter (P : Attendee -> Prop) (p : Attendee -> bool)
    (l : list Attendee) :
  (forall a, P a <-> p a = true) -> counted P l (length (filter p l)).
Proof.
  intros H. induction l as [|a l IH]; cbn [filter]; [constructor|].
  destruct (p a) eqn:E.
  - apply counted_in; [now apply H|exact IH].
  - apply counted_out; [|exact IH]. intros X. apply H in X. congruence.
Qed.

Lemma counted_unique (P : Attendee -> Prop) (l : list Attendee) (n m : nat) :
  counted P l n -> counted P l m -> n = m.
Proof.
  intros Hn. revert m. induction Hn as [|a l n Pa Hn IH|a l n Pa Hn IH];
    intros m Hm; inversion Hm; subst; try reflexivity; try contradiction.
  - f_equal. now apply IH.
  - now apply IH.
Qed.

Lemma filter_filter_and {A} (f g : A -> bool) (l : list A) :
  filter f (filter g l) = filter (fun a => g a && f a) l.
Proof.
  induction l as [|a l IH]; [reflexivity|]. cbn [filter].
  destruct (g a); cbn [filter andb]; [destruct (f a)|]; now rewrite IH.
Qed.

Lemma internal_attendees_counted config ev :
  counted (internal_attendee config) (attendees ev)
    (length (internal_attendees config ev)).
Proof.
  unfold internal_attendees, listed_attendees. rewrite filter_filter_and.
  apply counted_filter. intros a. apply internal_attendee_spec.
Qed.

Lemma effective_attendees_counted config ev :
  counted (effective_attendee config) (attendees ev)
    (length (effective_attendees config ev)).
Proof.
  unfold effective_attendees, internal_attendees, listed_attendees.
  rewrite !filter_filter_and.
  apply counted_filter. intros a. cbv beta. rewrite andb_assoc.
  apply effective_attendee_spec.
Qed.

Lemma some_external_attendee config ev :
  (exists a, In a (attendees ev) /\ external_attendee config a)
  <-> length (internal_attendees config ev) <> length (listed_attendees ev).
Proof.
  rewrite some_external. unfold listed_attendees. split.
  - intros (a & Ha & He). apply external_attendee_spec in He as [H Hi].
    exists a. split; [|exact Hi]. apply filter_In. now split.
  - intros (a & Ha & Hi). apply filter_In in Ha as [Ha H].
    exists a. split; [exact Ha|]. apply external_attendee_spec. now split.
Qed.


Lemma skip_is_skip_shape (reason : string) :
  In (lit reason) skip_reasons -> skip_shape (skip reason).
Proof. intros H. repeat split. exists (lit reason). now split. Qed.

(** C10 (amended): for a non-negative hourly rate every result is either a
    skip result (both costs -1 and one of the six reasons) or a qualifying
    result (both costs at least 0, both counts at least 2, positive hours,
    no reason), never both, and the sign of [effective_cost] tells which;
    the driver, which tests only that sign, counts exactly the skip results
    as skipped and annotates the others. *)
Theorem result_shapes config ev rate :
  (0 <= rate_used config rate)%Q ->
  let r := compute_meeting_cost config ev rate in
  ((skip_shape r /\ ~ qualifying_shape r /\ (effective_cost r <? 0)%Z = true)
   \/ (qualifying_shape r /\ ~ skip_shape r
       /\ (effective_cost r <? 0)%Z = false))
  /\ (rate = None -> forall cal email st,
        process_event config cal email st ev
        = match skip_reason r with
          | Some _ => count_skipped st
          | None =>
              match annotate_event config cal email ev (Dict r) with
              | inr request => count_processed st request
              | inl e => print st (failure_line email ev e)
              end
          end).
Proof.
  intros Hrate r.
  assert (Hshape :
    (skip_shape r /\ ~ qualifying_shape r /\ (effective_cost r <? 0)%Z = true)
    \/ (qualifying_shape r /\ ~ skip_shape r
        /\ (effective_cost r <? 0)%Z = false)).
  { subst r.
    destruct (compute_meeting_cost_decision config ev rate) as
      [H|H Hio Hne|H Hall H0|H Hall H1|H Hall H2 H0|H Hall H2 H1|H Hall H2 H3];
      try (left; split; [apply skip_is_skip_shape; simpl; tauto|];
           split; [intros (_ & _ & _ & _ & _ & X); discriminate X|reflexivity]).
    right.
    set (ic := py_round _). set (ec := py_round _).
    assert (Hic : (0 <= ic)%Z).
    { subst ic. apply cost_nonneg; [lra|exact Hrate]. }
    assert (Hec : (0 <= ec)%Z).
    { subst ec. apply cost_nonneg; [lra|exact Hrate]. }
    split; [|split].
    - unfold qualifying_shape; simpl. repeat split; auto.
      + eexists; split; [reflexivity|lia].
      + eexists; split; [reflexivity|lia].
      + eexists; split; [reflexivity|exact H].
    - intros (_ & _ & reason & _ & X). discriminate X.
    - simpl. apply Z.ltb_ge. exact Hec. }
  split; [exact Hshape|].
  intros -> cal email st. unfold process_event. fold r.
  destruct Hshape as [((_ & _ & reason & _ & Hr) & _ & Hneg)
                     |((_ & _ & _ & _ & _ & Hr) & _ & Hneg)];
    rewrite Hneg, Hr; reflexivity.
Qed.

(** The hypothesis of C10 holds at the default rate. *)
Lemma result_shapes_witness :
  let config := default_config in
  let ev := one_hour_one_declined in
  let r := compute_meeting_cost config ev None in
  ((skip_shape r /\ ~ qualifying_shape r /\ (effective_cost r <? 0)%Z = true)
   \/ (qualifying_shape r /\ ~ skip_shape r
       /\ (effective_cost r <? 0)%Z = false))
  /\ (@None Q = None -> forall cal email st,
        process_event config cal email st ev
        = match skip_reason r with
          | Some _ => count_skipped st
          | None =>
              match annotate_event config cal email ev (Dict r) with
              | inr request => count_processed st request
              | inl e => print st (failure_line email ev e)
              end
          end).
Proof.
  apply (@result_shapes default_config one_hour_one_declined None).
  vm_compute. discriminate.
Defined.

(** C10 as stated fails: at an hourly rate of -125 a one-hour meeting of
    two qualifies with both costs -250, and a driver configured with that
    rate counts it as skipped. *)
Lemma negative_rate_breaks_shapes :
  (let r := compute_meeting_cost default_config one_hour_two
              (Some (-125)%Q) in
   skip_reason r = None /\ invited_cost r = (-250)%Z
   /\ effective_cost r = (-250)%Z)
  /\ (let r := compute_meeting_cost negative_rate_config one_hour_two None in
      skip_reason r = None
      /\ process_event negative_rate_config empty_calendar
           (lit "alice@hginsights.com") blank_state one_hour_two
         = count_skipped blank_state).
Proof. vm_compute. repeat split. Qed.

(** ** The driver *)

Lemma process_event_frame config cal email st ev :
  tokens (process_event config cal email st ev) = tokens st
  /\ listed (process_event config cal email st ev) = listed st
  /\ pauses (process_event config cal email st ev) = pauses st.
Proof.
  unfold process_event.
  destruct (effective_cost _ <? 0)%Z; [now repeat split|].
  destruct (annotate_event _ _ _ _ _); now repeat split.
Qed.

Lemma event_loop_frame config cal email items st :
  tokens (fold_left (process_event config cal email) items st) = tokens st
  /\ listed (fold_left (process_event config cal email) items st) = listed st.
Proof.
  revert st. induction items as [|ev items IH]; intros st; simpl; [now split|].
  destruct (IH (process_event config cal email st ev)) as [-> ->].
  destruct (process_event_frame config cal email st ev) as (-> & -> & _).
  now split.
Qed.

Lemma users_loop_app config w idx before after st :
  users_loop config w idx (before ++ after) st
  = match users_loop config w idx before st with
    | (st', Some e) => (st', Some e)
    | (st', None) => users_loop config w (idx + length before) after st'
    end.
Proof.
  revert idx st. induction before as [|u before IH]; intros idx st; simpl.
  - now rewrite Nat.add_0_r.
  - destruct (process_user config w st idx u) as [st' [e|]]; [reflexivity|].
    rewrite IH. now rewrite Nat.add_succ_r.
Qed.

Lemma list_changed_events_cases config cal calendar_id sync_token :
  let first :=
    paginate (events_list cal calendar_id (list_request config sync_token)) [] in
  let call := list_changed_events config cal calendar_id sync_token in
  (call = inr (None, None)
   <-> exists e, first = inl e /\ is_stale_token_error e = true)
  /\ (forall e, first = inl e -> is_stale_token_error e = false -> call = inl e)
  /\ (forall events token,
        first = inr (events, token) -> call = inr (Some events, token)).
Proof.
  intros first call. subst first call. unfold list_changed_events.
  destruct (paginate _ _) as [e|[events token]].
  - destruct (is_stale_token_error e) eqn:E.
    + split; [|split].
      * split; [eauto|reflexivity].
      * intros e' H. injection H as <-. congruence.
      * discriminate.
    + split; [|split].
      * split; [discriminate|]. intros (e' & H & H'). congruence.
      * intros e' H _. injection H as <-. reflexivity.
      * discriminate.
  - split; [|split].
    + split; [discriminate|]. intros (e' & H & _). discriminate.
    + discriminate.
    + intros events' token' H. injection H as <- <-. reflexivity.
Qed.

Lemma is_stale_token_error_spec (e : Exn) :
  is_stale_token_error e = true <-> synchronization_required e.
Proof.
  unfold is_stale_token_error, synchronization_required.
  rewrite andb_true_iff, contains_holds, contains_lower_holds by reflexivity.
  reflexivity.
Qed.

(** C6 (amended): [list_changed_events] returns [(None, None)] exactly when
    the listing it requested, incremental for a non-empty cursor and
    windowed otherwise, raised an error whose text holds [syncToken] and,
    letter case ignored, [full sync]; any other error is raised again and a
    listing that ends returns its events and token.  On [(None, None)] the
    driver sends one more request, the windowed one without token, and
    nothing after it; if that listing ends with a token, the token is saved
    for the user. *)
Theorem stale_token_falls_back config cal calendar_id sync_token :
  let first :=
    paginate (events_list cal calendar_id (list_request config sync_token)) [] in
  let call := list_changed_events config cal calendar_id sync_token in
  let full := Windowed (window_days config) in
  (call = inr (None, None)
   <-> exists e, first = inl e /\ synchronization_required e)
  /\ (forall e, first = inl e -> ~ synchronization_required e -> call = inl e)
  /\ (forall events token,
        first = inr (events, token) -> call = inr (Some events, token))
  /\ (call = inr (None, None) ->
      fetch_events config cal calendar_id sync_token
      = ([list_request config sync_token; full],
         list_changed_events config cal calendar_id None))
  /\ (call <> inr (None, None) ->
      fetch_events config cal calendar_id sync_token
      = ([list_request config sync_token], call))
  /\ (forall w st idx events token,
        calendar_service w calendar_id = cal ->
        get_sync_token st calendar_id = sync_token ->
        call = inr (None, None) ->
        paginate (events_list cal calendar_id full) [] = inr (events, Some token) ->
        truthy token = true ->
        snd (process_user config w st idx calendar_id) = None
        /\ tokens (fst (process_user config w st idx calendar_id)) calendar_id
           = Some token
        /\ listed (fst (process_user config w st idx calendar_id))
           = listed st ++ [(calendar_id, list_request config sync_token);
                           (calendar_id, full)])
  /\ (let run := cron default_config stale_world in
      snd run = inr ({| report_processed := 1; report_skipped := 0 |}, 200%Z)
      /\ listed (fst run) = [(ALICE, Incremental (lit "old"));
                             (ALICE, Windowed 35)]
      /\ tokens (fst run) ALICE = Some (lit "fresh")).
Proof.
  intros first call full.
  destruct (list_changed_events_cases config cal calendar_id sync_token)
    as (H1 & H2 & H3).
  fold first call in H1, H2, H3.
  assert (Hretry : call = inr (None, None) ->
      fetch_events config cal calendar_id sync_token
      = ([list_request config sync_token; full],
         list_changed_events config cal calendar_id None)).
  { intros H. unfold fetch_events. fold call. rewrite H. reflexivity. }
  split; [|split; [|split; [exact H3|]]].
  { rewrite H1. split; intros (e & He & Hs); exists e; split; try exact He;
      now apply is_stale_token_error_spec. }
  { intros e He Hn. apply H2; [exact He|].
    destruct (is_stale_token_error e) eqn:E; [|reflexivity].
    exfalso. now apply Hn, is_stale_token_error_spec. }
  split; [exact Hretry|]. split; [|split].
  - intros H. unfold fetch_events. fold call.
    destruct call as [e|[[items|] [token|]]]; try reflexivity.
    now contradiction H.
  - intros w st idx events token Hcal Htok Hcall Hfull Htruthy.
    unfold process_user. rewrite Hcal.
    set (st0 := if (idx mod 20 =? 0)%nat then sleep st else st).
    assert (Hst0 : get_sync_token st0 calendar_id = sync_token
                   /\ listed st0 = listed st).
    { subst st0. destruct (idx mod 20 =? 0)%nat; now split. }
    destruct Hst0 as [Hsleep Hlisted].
    rewrite Hsleep, (Hretry Hcall).
    unfold list_changed_events. simpl list_request. fold full.
    rewrite Hfull. cbv beta iota zeta. rewrite Htruthy.
    cbn [fst snd].
    set (st1 := record_listings _ _ _).
    destruct (event_loop_frame config cal calendar_id events st1) as [Ht Hl].
    split; [reflexivity|]. split.
    + cbn [save_sync_token tokens]. now rewrite str_eqb_refl.
    + cbn [save_sync_token listed]. rewrite Hl. subst st1.
      cbn [record_listings listed map]. now rewrite Hlisted.
  - vm_compute. repeat split.
Qed.

(** C6 as stated fails three times.  Asked without a cursor, a calendar
    that answers the windowed listing with such an error gets [(None, None)]
    back although no cursor was supplied, let alone rejected.  A calendar
    that rejects the supplied cursor with the message [Sync token is no
    longer valid, a full sync is required.] gets the error raised, not the
    sentinel: the text does not hold [syncToken].  And the second listing
    need not yield a cursor: when it fails like the first, the run ends with
    [TypeError] and the stored cursor stays the rejected one. *)
Lemma sentinel_without_cursor :
  (list_request default_config None = Windowed 35
   /\ list_changed_events default_config always_stale_calendar ALICE None
      = inr (None, None))
  /\ (list_request default_config (Some (lit "old")) = Incremental (lit "old")
      /\ list_changed_events default_config gone_calendar ALICE
           (Some (lit "old"))
         = inl (UpstreamError GONE_MESSAGE))
  /\ (let run := cron default_config always_stale_world in
      snd run = inl (TypeError (lit "'NoneType' object is not iterable"))
      /\ listed (fst run) = [(ALICE, Incremental (lit "old"));
                             (ALICE, Windowed 35)]
      /\ tokens (fst run) ALICE = Some (lit "old")).
Proof. vm_compute. repeat split. Qed.

Lemma process_user_fetch_failure config w st idx email e :
  snd (fetch_events config (calendar_service w email) email
         (get_sync_token st email)) = inl e ->
  exists st',
    process_user config w st idx email = (st', Some e)
    /\ processed st' = processed st /\ skipped st' = skipped st
    /\ printed st' = printed st /\ patched st' = patched st
    /\ tokens st' = tokens st
    /\ listed st'
       = listed st
         ++ map (pair email)
              (fst (fetch_events config (calendar_service w email) email
                      (get_sync_token st email))).
Proof.
  intros H. unfold process_user.
  set (st0 := if (idx mod 20 =? 0)%nat then sleep st else st).
  assert (Hst0 : get_sync_token st0 email = get_sync_token st email
                 /\ processed st0 = processed st /\ skipped st0 = skipped st
                 /\ printed st0 = printed st /\ patched st0 = patched st
                 /\ tokens st0 = tokens st /\ listed st0 = listed st).
  { subst st0. destruct (idx mod 20 =? 0)%nat; now repeat split. }
  destruct Hst0 as (Hg & Hp & Hs & Hpr & Hpa & Ht & Hl). rewrite Hg.
  destruct (fetch_events _ _ _ _) as [requests fetched]. simpl in H. subst fetched.
  eexists. split; [reflexivity|]. cbn [record_listings processed skipped printed
    patched tokens listed fst]. rewrite Hl. now repeat split.
Qed.

(** C7 (amended): when fetching the events of a user raises, [cron] ends
    with that exception: there is no report, the users after the failing
    one are not visited (the last listing requested is the failing one),
    and counters, printed lines, patches and stored tokens are those left
    by the users before it. *)
Theorem fatal_user_failure_ends_run config w before email after st e :
  list_active_users w = before ++ email :: after ->
  users_loop config w 0 before (initial_state w) = (st, None) ->
  snd (fetch_events config (calendar_service w email) email
         (get_sync_token st email)) = inl e ->
  exists st',
    cron config w = (st', inl e)
    /\ processed st' = processed st /\ skipped st' = skipped st
    /\ printed st' = printed st /\ patched st' = patched st
    /\ tokens st' = tokens st
    /\ listed st'
       = listed st
         ++ map (pair email)
              (fst (fetch_events config (calendar_service w email) email
                      (get_sync_token st email))).
Proof.
  intros Husers Hbefore Hfetch.
  destruct (process_user_fetch_failure config w st (length before) email Hfetch)
    as (st' & Hu & Hframe).
  exists st'. split; [|exact Hframe].
  unfold cron. rewrite Husers, users_loop_app, Hbefore. simpl.
  now rewrite Hu.
Qed.

(** The hypotheses of C7 hold when the first of two calendars is down. *)
Lemma fatal_user_failure_ends_run_witness :
  exists st',
    cron default_config outage_world
    = (st', inl (UpstreamError (lit "503 Service Unavailable")))
    /\ processed st' = processed (initial_state outage_world)
    /\ skipped st' = skipped (initial_state outage_world)
    /\ printed st' = printed (initial_state outage_world)
    /\ patched st' = patched (initial_state outage_world)
    /\ tokens st' = tokens (initial_state outage_world)
    /\ listed st'
       = listed (initial_state outage_world)
         ++ map (pair ALICE)
              (fst (fetch_events default_config
                      (calendar_service outage_world ALICE) ALICE
                      (get_sync_token (initial_state outage_world) ALICE))).
Proof.
  apply (@fatal_user_failure_ends_run default_config outage_world
           [] ALICE [BOB]); reflexivity.
Defined.

(** C7 as stated fails: with Alice's calendar unavailable the run ends with
    the upstream error, Bob's calendar is never listed and his meeting never
    annotated, and no report is returned; alone, Bob has one meeting
    processed. *)
Lemma outage_aborts_the_batch :
  let run := cron default_config outage_world in
  snd run = inl (UpstreamError (lit "503 Service Unavailable"))
  /\ listed (fst run) = [(ALICE, Windowed 35)]
  /\ patched (fst run) = []
  /\ snd (cron default_config bob_only_world)
     = inr ({| report_processed := 1; report_skipped := 0 |}, 200%Z).
Proof. vm_compute. repeat split. Qed.

Lemma process_user_fetched config w st idx email requests items token :
  fetch_events config (calendar_service w email) email
    (get_sync_token st email) = (requests, inr (Some items, token)) ->
  exists st', process_user config w st idx email = (st', None).
Proof.
  intros H. unfold process_user.
  set (st0 := if (idx mod 20 =? 0)%nat then sleep st else st).
  assert (Hst0 : get_sync_token st0 email = get_sync_token st email).
  { subst st0. now destruct (idx mod 20 =? 0)%nat. }
  rewrite Hst0, H.
  destruct token as [t|]; [destruct (truthy t)|]; eexists; reflexivity.
Qed.

(** C8 (amended): when the annotation of a qualifying event raises, the
    error is printed and neither counter changes; the loop goes on with the
    remaining events of the user, the user's turn ends without exception and
    the run goes on with the next user. *)
Theorem annotation_failure_logged config cal email st ev e :
  (effective_cost (compute_meeting_cost config ev None) <? 0)%Z = false ->
  annotate_event config cal email ev
    (Dict (compute_meeting_cost config ev None)) = inl e ->
  let st' := process_event config cal email st ev in
  st' = print st (failure_line email ev e)
  /\ processed st' = processed st
  /\ skipped st' = skipped st
  /\ (forall rest,
        fold_left (process_event config cal email) (ev :: rest) st
        = fold_left (process_event config cal email) rest st')
  /\ (forall w st0 idx requests before rest token users,
        calendar_service w email = cal ->
        fetch_events config cal email (get_sync_token st0 email)
        = (requests, inr (Some (before ++ ev :: rest), token)) ->
        exists st1,
          process_user config w st0 idx email = (st1, None)
          /\ users_loop config w idx (email :: users) st0
             = users_loop config w (S idx) users st1).
Proof.
  intros Hcost Hraise st'.
  assert (E : st' = print st (failure_line email ev e)).
  { subst st'. unfold process_event. now rewrite Hcost, Hraise. }
  split; [exact E|]. rewrite E. repeat split.
  - intros rest. simpl. fold st'. now rewrite E.
  - intros w st0 idx requests before rest token users Hcal Hfetch.
    rewrite <- Hcal in Hfetch.
    destruct (process_user_fetched config w st0 idx email Hfetch) as [st1 H1].
    exists st1. split; [exact H1|]. simpl. now rewrite H1.
Qed.

(** The hypotheses of C8 hold on a read-only calendar. *)
Lemma annotation_failure_logged_witness :
  let config := default_config in
  let cal := read_only_calendar in
  let email := ALICE in
  let st := initial_state read_only_world in
  let ev := one_hour_two in
  let e := UpstreamError (lit "403 Forbidden") in
  let st' := process_event config cal email st ev in
  st' = print st (failure_line email ev e)
  /\ processed st' = processed st
  /\ skipped st' = skipped st
  /\ (forall rest,
        fold_left (process_event config cal email) (ev :: rest) st
        = fold_left (process_event config cal email) rest st')
  /\ (forall w st0 idx requests before rest token users,
        calendar_service w email = cal ->
        fetch_events config cal email (get_sync_token st0 email)
        = (requests, inr (Some (before ++ ev :: rest), token)) ->
        exists st1,
          process_user config w st0 idx email = (st1, None)
          /\ users_loop config w idx (email :: users) st0
             = users_loop config w (S idx) users st1).
Proof.
  apply (@annotation_failure_logged default_config read_only_calendar ALICE
           (initial_state read_only_world) one_hour_two
           (UpstreamError (lit "403 Forbidden"))); reflexivity.
Defined.

(** C8 as stated fails: the failed annotation is printed but counted
    nowhere; the report is that of a run that met no event. *)
Lemma annotation_failure_not_counted :
  let run := cron default_config read_only_world in
  snd run = inr ({| report_processed := 0; report_skipped := 0 |}, 200%Z)
  /\ snd run = snd (cron default_config quiet_world)
  /\ printed (fst run)
     = [lit "Failed to annotate event alice@hginsights.com:evt1: 403 Forbidden"]
  /\ patched (fst run) = [].
Proof. vm_compute. repeat split. Qed.

(** ** The annotation merge *)

(** ** The regular expression *)

Lemma block_end_lookahead (A : Type) (k : str -> option A) (s : str) :
  run (Look (Alt (Seq (Lit [NEWLINE])
                      (NegLook (Class [BOX_UP_RIGHT; BOX_HORIZONTAL])))
                 Eos)) s k
  = if stop_here s then k s else None.
Proof.
  destruct s as [|c s]; [reflexivity|].
  cbn [run strip_prefix stop_here existsb is_box].
  rewrite (N.eqb_sym NEWLINE c).
  destruct (N.eqb c NEWLINE); cbn [andb].
  - destruct s as [|d s]; [reflexivity|].
    rewrite orb_false_r.
    destruct (N.eqb d BOX_UP_RIGHT || N.eqb d BOX_HORIZONTAL); reflexivity.
  - destruct s as [|d s]; reflexivity.
Qed.

Lemma lazy_any_ext (A : Type) (k1 k2 : str -> option A) :
  (forall s, k1 s = k2 s) -> forall s, lazy_any k1 s = lazy_any k2 s.
Proof.
  intros H s. induction s as [|c s IH]; cbn [lazy_any]; rewrite H;
    [reflexivity|]. now rewrite IH.
Qed.

Lemma lazy_any_scan (A : Type) (g : str -> A) (s : str) :
  lazy_any (fun s' => if stop_here s' then Some (g s') else None) s
  = Some (g (scan s)).
Proof.
  induction s as [|c s IH].
  - reflexivity.
  - cbn [lazy_any scan]. destruct (stop_here (c :: s)); [reflexivity|exact IH].
Qed.

Lemma match_at_tag_pattern config s :
  match_at (tag_pattern config) s
  = match strip_prefix (marker config) s with
    | Some rest => Some (length s - length (scan rest))%nat
    | None => None
    end.
Proof.
  unfold match_at, tag_pattern, marker. rewrite strip_prefix_app.
  cbn [run]. destruct (strip_prefix (cost_tag config) s) as [s1|]; [|reflexivity].
  destruct (strip_prefix (lit ":") s1) as [rest|]; [|reflexivity].
  rewrite <- (lazy_any_scan (fun r => (length s - length r)%nat)).
  apply lazy_any_ext. intros s'.
  apply (block_end_lookahead (fun r => Some (length s - length r)%nat)).
Qed.

(** ** Scanning to the end of a block *)

Lemma scan_stop (s : str) : stop_here (scan s) = true.
Proof.
  induction s as [|c s IH]; [reflexivity|].
  cbn [scan]. destruct (stop_here (c :: s)) eqn:E; [exact E|exact IH].
Qed.

Lemma scan_fixed (s : str) : stop_here s = true -> scan s = s.
Proof. intros H. destruct s; cbn [scan]; now rewrite H. Qed.

Lemma scan_suffix (s : str) : exists before, s = before ++ scan s.
Proof.
  induction s as [|c s [before IH]]; [now exists []|].
  cbn [scan]. destruct (stop_here (c :: s)).
  - now exists [].
  - exists (c :: before). simpl. now f_equal.
Qed.

Lemma transparent_app (a b : str) :
  transparent a -> transparent b -> transparent (a ++ b).
Proof. intros Ha Hb x. now rewrite <- app_assoc, Ha, Hb. Qed.

Lemma transparent_one_line (a : str) : ~ In NEWLINE a -> transparent a.
Proof.
  intros H x. induction a as [|c a IH]; [reflexivity|].
  cbn [app scan stop_here].
  destruct (N.eqb_spec c NEWLINE) as [->|NE]; [exfalso; apply H; now left|].
  cbn [andb]. apply IH. intros Hin. apply H. now right.
Qed.

Lemma transparent_subordinate : transparent [NEWLINE; BOX_UP_RIGHT; BOX_HORIZONTAL].
Proof. intros x. reflexivity. Qed.

(** ** Substitution *)

Lemma marker_nonempty config : marker config <> [].
Proof. unfold marker. destruct (cost_tag config); discriminate. Qed.

(** The pattern has no empty match: [sub_from] covers every case that
    arises. *)
Lemma tag_pattern_match_nonempty config (s : str) (n : nat) :
  match_at (tag_pattern config) s = Some n -> (0 < n)%nat.
Proof.
  rewrite match_at_tag_pattern.
  destruct (strip_prefix (marker config) s) as [rest|] eqn:E; [|discriminate].
  intros H. injection H as <-.
  apply strip_prefix_spec in E. destruct (scan_suffix rest) as [before Hb].
  assert (L : length s = length (marker config ++ before ++ scan rest))
    by now rewrite E, Hb at 1.
  rewrite !length_app in L.
  assert (length (marker config) <> 0)%nat.
  { intros Z. apply length_zero_iff_nil in Z. now apply marker_nonempty in Z. }
  lia.
Qed.

Lemma sub_from_skip (r : regex) (repl : str) (n : nat) (s : str) :
  sub_from r repl n s = sub_from r repl 0 (skipn n s).
Proof.
  revert n. induction s as [|c s IH]; intros [|n]; try reflexivity.
  cbn [sub_from skipn]. apply IH.
Qed.

Section Substitution.

Variable config : Config.
Variable line : str.

Local Abbreviation P := (tag_pattern config).
Local Abbreviation T := (marker config).

Lemma sub_nil : sub P line [] = [].
Proof. reflexivity. Qed.

Lemma sub_marker (s rest : str) :
  strip_prefix T s = Some rest ->
  sub P line s = line ++ sub P line (scan rest).
Proof.
  intros H. pose proof H as Hs. apply strip_prefix_spec in Hs.
  destruct (scan_suffix rest) as [before Hrest].
  assert (Hlen : (length s - length (scan rest) = length (T ++ before))%nat).
  { rewrite Hs, Hrest at 1. rewrite !length_app. lia. }
  assert (Hskip : skipn (length (T ++ before)) s = scan rest).
  { rewrite Hs, Hrest at 1. rewrite app_assoc, skipn_app, skipn_all, Nat.sub_diag.
    reflexivity. }
  destruct s as [|c s'].
  { symmetry in Hs. apply app_eq_nil in Hs as [Hs _].
    now apply marker_nonempty in Hs. }
  unfold sub. cbn [sub_from]. rewrite match_at_tag_pattern.
   rewrite H, Hlen.
  destruct (length (T ++ before)) as [|n] eqn:En.
  { apply length_zero_iff_nil, app_eq_nil in En as [En _].
    now apply marker_nonempty in En. }
  f_equal. rewrite sub_from_skip. f_equal. exact Hskip.
Qed.

Lemma sub_no_marker (c : char) (s : str) :
  strip_prefix T (c :: s) = None ->
  sub P line (c :: s) = c :: sub P line s.
Proof.
  intros H. unfold sub. cbn [sub_from]. rewrite match_at_tag_pattern.  now rewrite H.
Qed.

End Substitution.

Lemma starts_with_firstn (p s : str) :
  (exists rest, strip_prefix p s = Some rest) <-> firstn (length p) s = p.
Proof.
  split.
  - intros [rest H]. apply strip_prefix_spec in H. subst s.
    now rewrite firstn_app, firstn_all, Nat.sub_diag, app_nil_r.
  - intros H. exists (skipn (length p) s). apply strip_prefix_spec.
    rewrite <- H at 1. symmetry. apply firstn_skipn.
Qed.

Lemma strip_prefix_none_firstn (p s : str) :
  strip_prefix p s = None <-> firstn (length p) s <> p.
Proof.
  rewrite <- starts_with_firstn. split.
  - intros H [rest H']. congruence.
  - intros H. destruct (strip_prefix p s) eqn:E; [|reflexivity].
    exfalso. apply H. eauto.
Qed.

Section Idempotence.

Variable config : Config.
Variable body : str.
Hypothesis body_transparent : transparent body.

Local Abbreviation P := (tag_pattern config).
Local Abbreviation T := (marker config).
Local Abbreviation line := (marker config ++ body).
Local Abbreviation f := (sub (tag_pattern config) (marker config ++ body)).

Lemma sub_keeps_start (s : str) : firstn (length T) (f s) = firstn (length T) s.
Proof.
  induction s as [|c s IH]; [reflexivity|].
  destruct (strip_prefix T (c :: s)) as [rest|] eqn:E.
  - rewrite (sub_marker config line _ E). 
    apply strip_prefix_spec in E. rewrite E.
    rewrite <- !app_assoc.
    now rewrite !firstn_app, !firstn_all, Nat.sub_diag, !firstn_O.
  - rewrite (sub_no_marker config line _ _ E). 
    destruct (length T) as [|m] eqn:Em; [reflexivity|].
    cbn [firstn]. f_equal.
    assert (H : firstn m (firstn (S m) (f s)) = firstn m (firstn (S m) s))
      by now rewrite IH.
    rewrite !firstn_firstn in H. now rewrite Nat.min_l in H by lia.
Qed.

Lemma sub_keeps_head (s : str) : hd_error (f s) = hd_error s.
Proof.
  pose proof (sub_keeps_start s) as H.
  destruct (length T) as [|m] eqn:Em.
  { apply length_zero_iff_nil in Em. now apply marker_nonempty in Em. }
  destruct (f s), s; simpl in *; congruence.
Qed.

Lemma sub_keeps_no_marker (c : char) (s : str) :
  strip_prefix T (c :: s) = None -> strip_prefix T (c :: f s) = None.
Proof.
  rewrite !strip_prefix_none_firstn. intros H H'. apply H.
  destruct (length T) as [|m] eqn:Em; [exact H'|].
  cbn [firstn] in *. rewrite <- H'. f_equal.
  pose proof (sub_keeps_start s) as K. rewrite Em in K.
  assert (K' : firstn m (firstn (S m) (f s)) = firstn m (firstn (S m) s))
    by now rewrite K.
  rewrite !firstn_firstn in K'. now rewrite Nat.min_l in K' by lia.
Qed.

Lemma sub_keeps_stop (s : str) : stop_here s = true -> stop_here (f s) = true.
Proof.
  destruct s as [|c s]; [reflexivity|].
  intros H. pose proof H as H0. cbn [stop_here] in H.
  apply andb_true_iff in H as [Hc Hs]. apply N.eqb_eq in Hc. subst c.
  destruct (strip_prefix T (NEWLINE :: s)) as [rest|] eqn:E.
  - rewrite (sub_marker config line _ E). 
    apply strip_prefix_spec in E. rewrite <- app_assoc.
    unfold marker in *. destruct (cost_tag config) as [|t tag].
    + discriminate E.
    + rewrite <- !app_assoc in *. cbn [app] in *. injection E as <- E.
      change (lit ":") with [58%N]. subst s.
      destruct tag as [|t2 tag]; exact H0.
  - rewrite (sub_no_marker config line _ _ E). 
    cbn [stop_here]. rewrite N.eqb_refl. cbn [andb].
    pose proof (sub_keeps_head s) as K.
    destruct (f s), s; simpl in K; congruence.
Qed.

Lemma sub_line_then (r : str) :
  stop_here r = true -> f (line ++ r) = line ++ f r.
Proof.
  intros H.
  assert (E : strip_prefix T (line ++ r) = Some (body ++ r)).
  { apply strip_prefix_spec. now rewrite app_assoc. }
  rewrite (sub_marker config line _ E). 
  now rewrite body_transparent, (scan_fixed _ H).
Qed.

Lemma sub_idempotent_upto (n : nat) (s : str) :
  (length s <= n)%nat -> f (f s) = f s.
Proof.
  revert s. induction n as [|n IH]; intros s Hn.
  - destruct s; [reflexivity|simpl in Hn; lia].
  - destruct s as [|c s]; [reflexivity|].
    destruct (strip_prefix T (c :: s)) as [rest|] eqn:E.
    + rewrite (sub_marker config line _ E). 
      rewrite sub_line_then.
      * f_equal. apply IH.
        destruct (scan_suffix rest) as [before Hb].
        apply strip_prefix_spec in E.
        assert (L : length (c :: s) = length (T ++ before ++ scan rest))
          by now rewrite E, Hb at 1.
        rewrite !length_app in L.
        assert (length T <> 0)%nat.
        { intros Z. apply length_zero_iff_nil in Z.
          now apply marker_nonempty in Z. }
        lia.
      * apply sub_keeps_stop, scan_stop.
    + rewrite (sub_no_marker config line _ _ E). 
      rewrite (sub_no_marker config line c (f s)).
      *  f_equal. apply IH. simpl in Hn. lia.
      * now apply sub_keeps_no_marker.
Qed.

Lemma sub_idempotent (s : str) : f (f s) = f s.
Proof. apply (@sub_idempotent_upto (length s) s). lia. Qed.

End Idempotence.

(** ** Rendered cost lines *)

Lemma one_line_app (a b : str) : one_line (a ++ b) = one_line a && one_line b.
Proof. apply forallb_app. Qed.

Lemma one_line_transparent (a : str) : one_line a = true -> transparent a.
Proof.
  intros H. apply transparent_one_line. intros Hin.
  unfold one_line in H. rewrite forallb_forall in H.
  specialize (H _ Hin). now rewrite N.eqb_refl in H.
Qed.

Lemma one_line_uint (u : Decimal.uint) : one_line (uint_chars u) = true.
Proof. induction u; simpl; auto. Qed.

Lemma one_line_rev (a : str) : one_line (rev a) = one_line a.
Proof.
  induction a as [|c a IH]; [reflexivity|].
  simpl rev. rewrite one_line_app, IH. simpl. rewrite andb_true_r.
  apply andb_comm.
Qed.

Lemma group3_step (x y z w : char) (a : str) :
  group3 (x :: y :: z :: w :: a) = x :: y :: z :: 44%N :: group3 (w :: a).
Proof. reflexivity. Qed.

Lemma one_line_group3_upto (n : nat) (a : str) :
  (length a <= n)%nat -> one_line a = true -> one_line (group3 a) = true.
Proof.
  revert a. induction n as [|n IH]; intros a Hn H.
  - destruct a; [reflexivity|simpl in Hn; lia].
  - destruct a as [|x [|y [|z [|w a]]]]; try exact H.
    rewrite group3_step.
    change (x :: y :: z :: w :: a) with ([x; y; z] ++ w :: a) in H.
    change (x :: y :: z :: 44%N :: group3 (w :: a))
      with (([x; y; z] ++ [44%N]) ++ group3 (w :: a)).
    rewrite one_line_app in H. rewrite !one_line_app.
    apply andb_true_iff in H as [H1 H2]. rewrite H1. cbn [andb].
    apply IH; [simpl in *; lia|exact H2].
Qed.

Lemma one_line_sign (z : Z) : one_line (sign_chars z) = true.
Proof. unfold sign_chars. now destruct (z <? 0)%Z. Qed.

Lemma one_line_str_of_int (z : Z) : one_line (str_of_int z) = true.
Proof.
  unfold str_of_int. now rewrite one_line_app, one_line_sign, one_line_uint.
Qed.

Lemma one_line_format_thousands (z : Z) : one_line (format_thousands z) = true.
Proof.
  unfold format_thousands. rewrite one_line_app, one_line_sign, one_line_rev.
  apply (@one_line_group3_upto (length (rev (uint_chars (N.to_uint (Z.abs_N z)))))).
  - lia.
  - rewrite one_line_rev. apply one_line_uint.
Qed.

Lemma one_line_display (cost : Z) :
  one_line (get_cost_display_format cost) = true.
Proof.
  unfold get_cost_display_format.
  destruct (cost >? 1000)%Z; [|destruct (cost >? 500)%Z];
    cbn [one_line forallb app lit map list_ascii_of_string];
    change (forallb (fun c => negb (N.eqb c NEWLINE)) (format_thousands cost))
      with (one_line (format_thousands cost));
    now rewrite one_line_format_thousands.
Qed.

Lemma transparent_display (cost : Z) : transparent (get_cost_display_format cost).
Proof. apply one_line_transparent, one_line_display. Qed.

(** Every cost line is the marker followed by text inside which no block
    ends. *)
Lemma cost_line_shape config cost_info cost_line extended_cost :
  cost_line_of config cost_info = inr (cost_line, extended_cost) ->
  exists body, cost_line = marker config ++ body /\ transparent body.
Proof.
  assert (Hsingle : forall cost,
    exists body,
      cost_tag config ++ lit ": " ++ get_cost_display_format cost
      = marker config ++ body /\ transparent body).
  { intros cost. exists (lit " " ++ get_cost_display_format cost). split.
    - unfold marker. now rewrite <- app_assoc.
    - apply transparent_app; [now apply one_line_transparent|].
      apply transparent_display. }
  destruct cost_info as [cost|d]; cbn [cost_line_of].
  - intros H. injection H as <- _. apply Hsingle.
  - unfold create_dual_cost_display.
    destruct (invited_count d) as [n|]; [|discriminate].
    destruct (effective_count d) as [m|]; [|discriminate].
    destruct (invited_cost d =? effective_cost d)%Z.
    + intros H. injection H as <- _. apply Hsingle.
    + intros H. injection H as <- _.
      exists (lit " " ++ get_cost_display_format (effective_cost d)
              ++ [NEWLINE; BOX_UP_RIGHT; BOX_HORIZONTAL] ++ lit " Invited cost: "
              ++ get_cost_display_format (invited_cost d)
              ++ lit " (" ++ str_of_int n ++ lit " invited "
              ++ [RIGHT_ARROW] ++ lit " " ++ str_of_int m
              ++ lit " attending)").
      split.
      * unfold marker. now rewrite <- app_assoc.
      * repeat apply transparent_app;
          try apply transparent_display;
          try apply transparent_subordinate;
          try (apply one_line_transparent; first
                 [ apply one_line_str_of_int | apply one_line_sign
                 | apply one_line_uint | reflexivity ]).
Qed.

(** ** The new description *)

Lemma search_contains config (s : str) :
  search (tag_pattern config) s = contains (marker config) s.
Proof.
  induction s as [|c s IH]; cbn [search contains];
    rewrite match_at_tag_pattern; unfold startswith;
    destruct (strip_prefix (marker config) _); try reflexivity.
  exact IH.
Qed.

Lemma contains_nil config : contains (marker config) [] = false.
Proof. unfold marker. now destruct (cost_tag config). Qed.

Lemma contains_cons (p : str) (c : char) (s : str) :
  contains p (c :: s) = startswith (c :: s) p || contains p s.
Proof. reflexivity. Qed.

Lemma sub_absent config line (s : str) :
  contains (marker config) s = false -> sub (tag_pattern config) line s = s.
Proof.
  induction s as [|c s IH]; [reflexivity|].
  rewrite contains_cons. intros H. apply orb_false_iff in H as [H1 H2].
  unfold startswith in H1.
  destruct (strip_prefix (marker config) (c :: s)) eqn:E; [discriminate|].
  rewrite (sub_no_marker config line _ _ E). f_equal. now apply IH.
Qed.

Lemma contains_here (p s rest : str) :
  strip_prefix p s = Some rest -> contains p s = true.
Proof.
  intros H. destruct s; cbn [contains]; unfold startswith; now rewrite H.
Qed.

Lemma contains_sub config body (s : str) :
  contains (marker config) s = true ->
  contains (marker config)
    (sub (tag_pattern config) (marker config ++ body) s) = true.
Proof.
  induction s as [|c s IH].
  - cbn. unfold startswith.
    destruct (strip_prefix (marker config) []) eqn:E; [|discriminate].
    apply strip_prefix_spec in E. symmetry in E.
    apply app_eq_nil in E as [E _]. now apply marker_nonempty in E.
  - rewrite contains_cons. unfold startswith.
    destruct (strip_prefix (marker config) (c :: s)) as [rest|] eqn:E.
    + intros _. rewrite (sub_marker config (marker config ++ body) _ E).
      rewrite <- app_assoc.
      apply (@contains_here _ _ (body ++ sub (tag_pattern config)
                                   (marker config ++ body) (scan rest))).
      now apply strip_prefix_spec.
    + intros H. rewrite (sub_no_marker config _ _ _ E).
      rewrite contains_cons, (IH H). apply orb_true_r.
Qed.

Lemma strip_prefix_longer (p a z : str) :
  (length p <= length a)%nat ->
  strip_prefix p a = None -> strip_prefix p (a ++ z) = None.
Proof.
  intros Hlen. rewrite !strip_prefix_none_firstn.
  rewrite firstn_app. replace (length p - length a)%nat with 0%nat by lia.
  now rewrite firstn_O, app_nil_r.
Qed.

Lemma sub_before config line (before rest : str) :
  contains (marker config) (before ++ cost_tag config) = false ->
  sub (tag_pattern config) line (before ++ marker config ++ rest)
  = before ++ sub (tag_pattern config) line (marker config ++ rest).
Proof.
  induction before as [|c before IH]; [reflexivity|].
  cbn [app]. rewrite contains_cons. intros H.
  apply orb_false_iff in H as [H1 H2]. unfold startswith in H1.
  destruct (strip_prefix (marker config) (c :: before ++ cost_tag config))
    eqn:E; [discriminate|].
  assert (E' : strip_prefix (marker config)
                 (c :: before ++ marker config ++ rest) = None).
  { unfold marker at 2. rewrite <- app_assoc.
    change (c :: before ++ cost_tag config ++ lit ":" ++ rest)
      with ((c :: before) ++ cost_tag config ++ lit ":" ++ rest).
    rewrite app_assoc. apply strip_prefix_longer; [|exact E].
    unfold marker. rewrite !length_app. simpl. lia. }
  rewrite (sub_no_marker config line _ _ E'). f_equal. now apply IH.
Qed.

Lemma new_description_idempotent config body (desc : str) :
  hd_error (cost_tag config) <> Some NEWLINE ->
  transparent body ->
  let cost_line := marker config ++ body in
  new_description config (new_description config desc cost_line) cost_line
  = new_description config desc cost_line.
Proof.
  intros Hhd Hbody cost_line.
  assert (Hline : forall r, stop_here r = true ->
            contains (marker config) r = false ->
            new_description config (cost_line ++ r) cost_line = cost_line ++ r).
  { intros r Hr Habs. unfold new_description.
    assert (E : strip_prefix (marker config) (cost_line ++ r)
                = Some (body ++ r)).
    { apply strip_prefix_spec. unfold cost_line. now rewrite app_assoc. }
    rewrite search_contains, (contains_here _ _ E).
    unfold cost_line. rewrite (sub_line_then config Hbody _ Hr).
    now rewrite sub_absent. }
  unfold new_description at 2 3. rewrite search_contains.
  destruct (contains (marker config) desc) eqn:Hc.
  - unfold new_description. rewrite search_contains.
    unfold cost_line. rewrite contains_sub by exact Hc.
    apply sub_idempotent. exact Hbody.
  - destruct (strip_nonempty desc).
    + apply Hline; [reflexivity|]. cbn [app].
      rewrite !contains_cons, Hc, !orb_false_r.
      assert (Hnl : forall x, startswith (NEWLINE :: x) (marker config) = false).
      { intros x. unfold startswith, marker.
        destruct (cost_tag config) as [|t tag]; cbn [app strip_prefix lit map
          list_ascii_of_string]; [reflexivity|].
        destruct (N.eqb_spec t NEWLINE) as [->|NE];
          [now contradiction Hhd|reflexivity]. }
      now rewrite !Hnl.
    + pose proof (Hline [] eq_refl (contains_nil config)) as H.
      now rewrite app_nil_r in H.
Qed.

(** C4 (amended): for a configured tag that does not start with a line
    break and holds no backslash (which [re.sub] would read as an escape),
    merging the same cost line into a description twice gives the text that
    merging it once gives; hence annotating the annotated event again sends
    the very same patch request. *)
Theorem annotation_idempotent config cost_info cost_line extended_cost desc :
  plain_tag (cost_tag config) ->
  cost_line_of config cost_info = inr (cost_line, extended_cost) ->
  new_description config (new_description config desc cost_line) cost_line
  = new_description config desc cost_line
  /\ (forall cal calendar_id event request,
        annotate_event config cal calendar_id event cost_info = inr request ->
        annotate_event config cal calendar_id
          (with_description event (body_description (body request))) cost_info
        = inr request).
Proof.
  intros [Hhd _] Hline.
  destruct (cost_line_shape _ _ Hline) as (body_text & -> & Hbody).
  assert (Hidem : forall d,
    new_description config (new_description config d (marker config ++ body_text))
      (marker config ++ body_text)
    = new_description config d (marker config ++ body_text)).
  { intros d. now apply new_description_idempotent. }
  split; [apply Hidem|].
  intros cal calendar_id event request. unfold annotate_event.
  cbn [with_description id description].
  destruct (id event) as [event_id|]; [|discriminate].
  rewrite Hline.
  set (d := match description event with Some d => d | None => [] end).
  set (first := {| calendarId := calendar_id; eventId := event_id;
                   body := _; sendNotifications := false |}).
  destruct (events_patch cal first) eqn:Hpatch; [discriminate|].
  intros H. injection H as <-. cbn [body body_description first].
  rewrite Hidem. fold first. now rewrite Hpatch.
Qed.

(** The hypotheses of C4 hold for the default tag and a two-line block. *)
Lemma annotation_idempotent_witness :
  let once := new_description default_config (lit "Weekly sync") line_500_750 in
  new_description default_config once line_500_750 = once
  /\ (forall cal calendar_id event request,
        annotate_event default_config cal calendar_id event
          (Dict (costs 750 500 3 2)) = inr request ->
        annotate_event default_config cal calendar_id
          (with_description event (body_description (body request)))
          (Dict (costs 750 500 3 2))
        = inr request).
Proof.
  apply (@annotation_idempotent default_config (Dict (costs 750 500 3 2))
           line_500_750 (lit "500") (lit "Weekly sync")).
  - split; [discriminate|]. vm_compute. intuition discriminate.
  - reflexivity.
Defined.

(** C4 as stated fails: with the tag configured as a single line break,
    the description [: hello] holds no tag, so the block is put before it
    with a blank line between; in the result the second line break of the
    blank line and the old text read as a tagged line, and merging again
    replaces that text by a second block. *)
Lemma line_break_tag_not_idempotent :
  let config := line_break_tag_config in
  let cost_line := [NEWLINE] ++ lit ": " ++ [GREEN_CIRCLE] ++ lit " $250" in
  let once := new_description config (lit ": hello") cost_line in
  cost_line_of config (Dict (costs 250 250 2 2)) = inr (cost_line, lit "250")
  /\ once = cost_line ++ [NEWLINE; NEWLINE] ++ lit ": hello"
  /\ new_description config once cost_line = cost_line ++ [NEWLINE] ++ cost_line
  /\ new_description config once cost_line <> once.
Proof. vm_compute. repeat split. discriminate. Qed.

(** C5 (amended): for a configured tag that does not start with a line
    break and holds no backslash, a rendered block that carries the first
    tag of the description and is followed by nothing, or by a line break
    that no box character follows and text without the tag, is replaced in
    place, the text before and after it kept as it is; a description
    without the tag gets the block, a blank line and the old text, or the
    block alone when the old text is empty or white space only. *)
Theorem annotation_replaces_block config cost_info cost_line extended_cost :
  plain_tag (cost_tag config) ->
  cost_line_of config cost_info = inr (cost_line, extended_cost) ->
  (forall before old old_line old_extended trailing,
      cost_line_of config old = inr (old_line, old_extended) ->
      contains (marker config) (before ++ cost_tag config) = false ->
      stop_here trailing = true ->
      contains (marker config) trailing = false ->
      new_description config (before ++ old_line ++ trailing) cost_line
      = before ++ cost_line ++ trailing)
  /\ (forall desc,
        contains (marker config) desc = false ->
        new_description config desc cost_line
        = if strip_nonempty desc
          then cost_line ++ [NEWLINE; NEWLINE] ++ desc
          else cost_line).
Proof.
  intros _ Hline. split.
  - intros before old old_line old_extended trailing Hold Hbefore Hstop Habs.
    destruct (cost_line_shape _ _ Hold) as (old_body & -> & Hbody).
    unfold new_description. rewrite search_contains.
    rewrite <- app_assoc.
    assert (Hsub : sub (tag_pattern config) cost_line
                     (before ++ marker config ++ old_body ++ trailing)
                   = before ++ cost_line ++ trailing).
    { rewrite sub_before by exact Hbefore. f_equal.
      rewrite (@sub_marker config cost_line _ (old_body ++ trailing)).
      - now rewrite Hbody, (scan_fixed _ Hstop), sub_absent.
      - now apply strip_prefix_spec. }
    rewrite Hsub.
    assert (Hc : contains (marker config)
                   (before ++ marker config ++ old_body ++ trailing) = true).
    { clear. induction before as [|c before IH].
      - apply (@contains_here _ _ (old_body ++ trailing)).
        now apply strip_prefix_spec.
      - cbn [app]. rewrite contains_cons, IH. apply orb_true_r. }
    now rewrite Hc.
  - intros desc Habs. unfold new_description.
    now rewrite search_contains, Habs.
Qed.

(** The hypotheses of C5 hold for the default tag. *)
Lemma annotation_replaces_block_witness :
  (forall before old old_line old_extended trailing,
      cost_line_of default_config old = inr (old_line, old_extended) ->
      contains (marker default_config) (before ++ cost_tag default_config)
      = false ->
      stop_here trailing = true ->
      contains (marker default_config) trailing = false ->
      new_description default_config (before ++ old_line ++ trailing) line_250
      = before ++ line_250 ++ trailing)
  /\ (forall desc,
        contains (marker default_config) desc = false ->
        new_description default_config desc line_250
        = if strip_nonempty desc
          then line_250 ++ [NEWLINE; NEWLINE] ++ desc
          else line_250).
Proof.
  apply (@annotation_replaces_block default_config (Dict (costs 250 250 2 2))
           line_250 (lit "250")).
  - split; [discriminate|]. vm_compute. intuition discriminate.
  - reflexivity.
Defined.

(** C5 as stated fails twice.  A description of one space holds no block
    and is not empty, yet the block is emitted alone and the space is lost.
    And a line of the user's that starts with a box character right after
    the block is taken for a subordinate line and replaced with it. *)
Lemma blank_description_dropped :
  (contains (marker default_config) (lit " ") = false
   /\ lit " " <> []
   /\ new_description default_config (lit " ") line_250 = line_250
   /\ new_description default_config (lit " ") line_250
      <> line_250 ++ [NEWLINE; NEWLINE] ++ lit " ")
  /\ (let trailing := agenda_rule ++ [NEWLINE] ++ lit "Budget review" in
      contains (marker default_config) trailing = false
      /\ new_description default_config (line_500_750 ++ trailing) line_250
         = line_250 ++ [NEWLINE] ++ lit "Budget review").
Proof. vm_compute. repeat split; discriminate. Qed.

(** Replacement in place, on a description with text around the block. *)
Example replace_in_place :
  new_description default_config
    (lit "Agenda below" ++ [NEWLINE] ++ line_500_750 ++ [NEWLINE]
     ++ lit "1. Budget") line_250
  = lit "Agenda below" ++ [NEWLINE] ++ line_250 ++ [NEWLINE] ++ lit "1. Budget".
Proof. reflexivity. Qed.

(* ================================================================= *)
(** * Further properties of the code *)

(** *** Durations *)

(** X1: the duration is positive exactly when both [dateTime] values are
    present and the end is after the start, and it is zero otherwise; when
    the difference in seconds and the difference in hours are binary64
    numbers, the duration is the difference in hours. *)
Theorem duration_positive_iff (ev : Event) :
  ((0 < event_duration_hours ev)%Q
   <-> exists s e, dateTime (start ev) = Some s /\ dateTime (end_ ev) = Some e
                   /\ (s < e)%Z)
  /\ ((~ exists s e, dateTime (start ev) = Some s /\ dateTime (end_ ev) = Some e
                     /\ (s < e)%Z) ->
      (event_duration_hours ev == 0)%Q)
  /\ (forall s e, dateTime (start ev) = Some s -> dateTime (end_ ev) = Some e ->
        (s <= e)%Z ->
        is_binary64 (inject_Z (e - s) / 1000000) ->
        is_binary64 (inject_Z (e - s) / 3600000000) ->
        (event_duration_hours ev == inject_Z (e - s) / 3600000000)%Q).
Proof.
  split; [apply positive_duration_iff|]. split.
  - intros Hn. apply Qle_antisym; [|apply event_duration_hours_nonneg].
    apply Qnot_lt_le. intros Hp. now apply Hn, positive_duration_iff.
  - intros s e Hs He L B1 B2. unfold event_duration_hours. rewrite Hs, He.
    unfold fdiv, total_seconds, truediv.
    change (inject_Z 1000000) with 1000000%Q.
    assert (P : (0 <= inject_Z (e - s) / 1000000)%Q).
    { apply Qle_shift_div_l; [reflexivity|]. rewrite Qmult_0_l.
      change 0%Q with (inject_Z 0). rewrite <- Zle_Qle. lia. }
    assert (E : (Qmax 0 (binary64 (inject_Z (e - s) / 1000000)) / 3600
                 == inject_Z (e - s) / 3600000000)%Q).
    { rewrite Q.max_r by (rewrite (binary64_exact _ B1); exact P).
      rewrite (binary64_exact _ B1). field. }
    rewrite (binary64_compat _ _ E). now apply binary64_exact.
Qed.

(** The binary64 conditions of X1 hold for a duration of ninety minutes. *)
Example ninety_minutes_exact :
  is_binary64 (inject_Z 5400000000 / 1000000)
  /\ is_binary64 (inject_Z 5400000000 / 3600000000)
  /\ (event_duration_hours (meeting (timed T0) (timed (T0 + 5400000000)) [])
      == 3 # 2)%Q.
Proof.
  split; [|split].
  - exists 5400%Z, 0%Z. split; [reflexivity|]. split; [lia|reflexivity].
  - exists 3%Z, (-1)%Z. split; [reflexivity|]. split; [lia|reflexivity].
  - vm_compute. reflexivity.
Qed.

(** *** What the result depends on *)

Lemma compute_meeting_cost_depends config ev1 ev2 rate :
  start ev1 = start ev2 -> end_ ev1 = end_ ev2 ->
  length (listed_attendees ev1) = length (listed_attendees ev2)
  \/ internal_only config = false ->
  length (internal_attendees config ev1) = length (internal_attendees config ev2) ->
  length (effective_attendees config ev1) = length (effective_attendees config ev2) ->
  compute_meeting_cost config ev1 rate = compute_meeting_cost config ev2 rate.
Proof.
  intros Hs He Hl Hi Hf. unfold compute_meeting_cost, event_duration_hours.
  rewrite Hs, He, Hi, Hf.
  destruct Hl as [-> | ->]; reflexivity.
Qed.

Lemma filter_filter_same {A} (f : A -> bool) (l : list A) :
  filter f (filter f l) = filter f l.
Proof.
  induction l as [|x l IH]; [reflexivity|]. simpl.
  destruct (f x) eqn:E; simpl; rewrite ?E, IH; reflexivity.
Qed.

Lemma filter_comm {A} (f g : A -> bool) (l : list A) :
  filter f (filter g l) = filter g (filter f l).
Proof.
  induction l as [|x l IH]; [reflexivity|]. simpl.
  destruct (f x) eqn:Ef, (g x) eqn:Eg; simpl; rewrite ?Ef, ?Eg, IH; reflexivity.
Qed.

(** X2: attendees without an e-mail address (key missing or empty) have no
    influence on the result: removing them from the event leaves it
    unchanged. *)
Theorem attendees_without_email_ignored config ev rate (who : list Attendee) :
  compute_meeting_cost config (with_attendees ev who) rate
  = compute_meeting_cost config (with_attendees ev (filter has_email who)) rate.
Proof.
  apply compute_meeting_cost_depends; try reflexivity.
  - left. unfold listed_attendees. cbn [attendees with_attendees].
    now rewrite filter_filter_same.
  - unfold internal_attendees, listed_attendees. cbn [attendees with_attendees].
    now rewrite filter_filter_same.
  - unfold effective_attendees, internal_attendees, listed_attendees.
    cbn [attendees with_attendees]. now rewrite filter_filter_same.
Qed.

(** X3: with the internal-only flag off, external attendees have no
    influence on the result: removing every attendee that is not internal
    leaves it unchanged. *)
Theorem externals_ignored_without_flag config ev rate (who : list Attendee) :
  internal_only config = false ->
  compute_meeting_cost config (with_attendees ev who) rate
  = compute_meeting_cost config
      (with_attendees ev
         (filter (fun a => internal_email config (email_of a)) who)) rate.
Proof.
  intros Hflag.
  assert (E : forall l,
    filter (fun a => internal_email config (email_of a))
      (filter has_email
         (filter (fun a => internal_email config (email_of a)) l))
    = filter (fun a => internal_email config (email_of a))
        (filter has_email l)).
  { intros l.
    rewrite (filter_comm has_email
               (fun a => internal_email config (email_of a)) l).
    now rewrite filter_filter_same. }
  apply compute_meeting_cost_depends; try reflexivity.
  - now right.
  - unfold internal_attendees, listed_attendees. cbn [attendees with_attendees].
    now rewrite E.
  - unfold effective_attendees, internal_attendees, listed_attendees.
    cbn [attendees with_attendees]. now rewrite E.
Qed.

(** An instance in which the hypotheses hold. *)
Lemma externals_ignored_without_flag_witness :
  let config := {| domain := lit "hginsights.com"; default_rate := 125%Q;
                   cost_tag := lit "[[MEETING_COST]]"; internal_only := false;
                   max_users := 10000; window_days := 35 |} in
  compute_meeting_cost config (with_attendees one_hour_two [alice; eve; bob]) None
  = compute_meeting_cost config
      (with_attendees one_hour_two
         (filter (fun a => internal_email config (email_of a))
            [alice; eve; bob])) None.
Proof.
  apply (@externals_ignored_without_flag
           {| domain := lit "hginsights.com"; default_rate := 125%Q;
              cost_tag := lit "[[MEETING_COST]]"; internal_only := false;
              max_users := 10000; window_days := 35 |}
           one_hour_two None [alice; eve; bob]).
  reflexivity.
Defined.

Lemma filter_length_perm {A} (f : A -> bool) (l l' : list A) :
  Permutation l l' -> length (filter f l) = length (filter f l').
Proof.
  induction 1 as [|x l l' _ IH|x y l|l l' l'' _ IH1 _ IH2]; simpl.
  - reflexivity.
  - destruct (f x); simpl; now rewrite IH.
  - destruct (f x), (f y); reflexivity.
  - now rewrite IH1.
Qed.

Lemma filter_perm {A} (f : A -> bool) (l l' : list A) :
  Permutation l l' -> Permutation (filter f l) (filter f l').
Proof.
  induction 1 as [|x l l' _ IH|x y l|l l' l'' _ IH1 _ IH2]; simpl.
  - constructor.
  - destruct (f x); [now constructor|exact IH].
  - destruct (f x), (f y); try reflexivity. constructor.
  - now transitivity (filter f l').
Qed.

(** X4: the result does not depend on the order of the attendee list. *)
Theorem attendee_order_irrelevant config ev rate (who who' : list Attendee) :
  Permutation who who' ->
  compute_meeting_cost config (with_attendees ev who) rate
  = compute_meeting_cost config (with_attendees ev who') rate.
Proof.
  intros Hp. apply compute_meeting_cost_depends; try reflexivity.
  - left. now apply filter_length_perm.
  - unfold internal_attendees, listed_attendees. cbn [attendees with_attendees].
    now apply filter_length_perm, filter_perm.
  - unfold effective_attendees, internal_attendees, listed_attendees.
    cbn [attendees with_attendees].
    now apply filter_length_perm, filter_perm, filter_perm.
Qed.

(** An instance in which the hypotheses hold. *)
Lemma attendee_order_irrelevant_witness :
  compute_meeting_cost default_config
    (with_attendees one_hour_two [alice; bob_declined; carol]) None
  = compute_meeting_cost default_config
      (with_attendees one_hour_two [carol; alice; bob_declined]) None.
Proof.
  apply (@attendee_order_irrelevant default_config one_hour_two None
           [alice; bob_declined; carol] [carol; alice; bob_declined]).
  apply Permutation_sym. apply (Permutation_middle [alice; bob_declined] [] carol).
Defined.

(** X5: for a non-negative hourly rate [compute_meeting_cost_legacy]
    returns the effective cost of [compute_meeting_cost]: -1 exactly for
    the skip results, and a number that is not negative otherwise. *)
Theorem legacy_cost_is_effective_cost config ev rate :
  (0 <= rate_used config rate)%Q ->
  let r := compute_meeting_cost config ev rate in
  let legacy := compute_meeting_cost_legacy config ev rate in
  legacy = effective_cost r
  /\ (legacy = (-1)%Z <-> skip_reason r <> None)
  /\ (skip_reason r = None -> (0 <= legacy)%Z).
Proof.
  intros Hrate r legacy.
  assert (E : legacy = effective_cost r).
  { subst legacy. unfold compute_meeting_cost_legacy. fold r.
    destruct (Z.eqb_spec (effective_cost r) (-1)) as [->|_]; reflexivity. }
  assert (Hpos : skip_reason r = None -> (0 <= effective_cost r)%Z).
  { intros Hq. subst r.
    destruct (compute_meeting_cost_decision config ev rate) as
      [H|H Hio Hne|H Hall H0|H Hall H1|H Hall H2 H0|H Hall H2 H1|H Hall H2 H3];
      try discriminate Hq.
    cbn [effective_cost]. apply cost_nonneg; [lra|exact Hrate]. }
  split; [exact E|]. rewrite E. split; [split|exact Hpos].
  - intros H Hq. specialize (Hpos Hq). lia.
  - intros H. subst r.
    destruct (compute_meeting_cost_decision config ev rate);
      try reflexivity. now contradiction H.
Qed.

(** An instance in which the hypotheses hold. *)
Lemma legacy_cost_is_effective_cost_witness :
  let r := compute_meeting_cost default_config one_hour_one_declined None in
  let legacy := compute_meeting_cost_legacy default_config one_hour_one_declined None in
  legacy = effective_cost r
  /\ (legacy = (-1)%Z <-> skip_reason r <> None)
  /\ (skip_reason r = None -> (0 <= legacy)%Z).
Proof.
  apply (@legacy_cost_is_effective_cost default_config one_hour_one_declined None).
  vm_compute. discriminate.
Defined.

(** *** The number shown and the number stored *)

Lemma without_commas_app (a b : str) :
  without_commas (a ++ b) = without_commas a ++ without_commas b.
Proof. apply filter_app. Qed.

Lemma without_commas_rev (a : str) :
  without_commas (rev a) = rev (without_commas a).
Proof.
  induction a as [|c a IH]; [reflexivity|].
  simpl rev. rewrite without_commas_app, IH. unfold without_commas at 2 3.
  simpl. destruct (negb (N.eqb c 44)); simpl; [reflexivity|].
  now rewrite app_nil_r.
Qed.

Lemma without_commas_group3_upto (n : nat) (a : str) :
  (length a <= n)%nat -> without_commas (group3 a) = without_commas a.
Proof.
  revert a. induction n as [|n IH]; intros a Hn.
  - destruct a; [reflexivity|simpl in Hn; lia].
  - destruct a as [|x [|y [|z [|w a]]]]; try reflexivity.
    rewrite group3_step.
    change (x :: y :: z :: 44%N :: group3 (w :: a))
      with ([x; y; z] ++ [44%N] ++ group3 (w :: a)).
    change (x :: y :: z :: w :: a) with ([x; y; z] ++ w :: a).
    rewrite !without_commas_app. f_equal.
    change (without_commas [44%N]) with (@nil char). cbn [app].
    apply IH. simpl in *. lia.
Qed.

Lemma without_commas_uint (u : Decimal.uint) :
  without_commas (uint_chars u) = uint_chars u.
Proof.
  induction u; simpl; try reflexivity;
    unfold without_commas in *; simpl; now rewrite IHu.
Qed.

Lemma without_commas_sign (z : Z) : without_commas (sign_chars z) = sign_chars z.
Proof. unfold sign_chars. now destruct (z <? 0)%Z. Qed.

Lemma without_commas_format (z : Z) :
  without_commas (format_thousands z) = str_of_int z.
Proof.
  unfold format_thousands, str_of_int.
  rewrite without_commas_app, without_commas_sign, without_commas_rev.
  rewrite (@without_commas_group3_upto
             (length (rev (uint_chars (N.to_uint (Z.abs_N z)))))) by lia.
  now rewrite without_commas_rev, rev_involutive, without_commas_uint.
Qed.

(** X6: [get_cost_display_format] shows an icon, [" $"] and the cost with
    thousands separators; with the separators removed the digits are the
    [str(cost)] that [annotate_event] stores in the extended properties;
    the icon is red above 1000, orange above 500 up to 1000 and green up to
    500. *)
Theorem display_shows_stored_number (cost : Z) :
  exists icon,
    get_cost_display_format cost = [icon] ++ lit " $" ++ format_thousands cost
    /\ without_commas (format_thousands cost) = str_of_int cost
    /\ (icon = RED_CIRCLE <-> (1000 < cost)%Z)
    /\ (icon = ORANGE_CIRCLE <-> (500 < cost <= 1000)%Z)
    /\ (icon = GREEN_CIRCLE <-> (cost <= 500)%Z).
Proof.
  unfold get_cost_display_format.
  destruct (Z.gtb_spec cost 1000) as [H|H];
    [|destruct (Z.gtb_spec cost 500) as [H'|H']];
    eexists; (split; [reflexivity|]); (split; [apply without_commas_format|]);
    repeat split; intros; try discriminate; try lia; try reflexivity.
Qed.

(** *** Lines of a block *)

Lemma line_breaks_app (a b : str) :
  line_breaks (a ++ b) = (line_breaks a + line_breaks b)%nat.
Proof. unfold line_breaks. now rewrite filter_app, length_app. Qed.

Lemma line_breaks_cons (c : char) (a : str) :
  line_breaks (c :: a)
  = ((if N.eqb NEWLINE c then 1 else 0) + line_breaks a)%nat.
Proof. unfold line_breaks. cbn [filter]. now destruct (N.eqb NEWLINE c). Qed.

Lemma line_breaks_one_line (a : str) : one_line a = true -> line_breaks a = 0%nat.
Proof.
  unfold one_line, line_breaks. induction a as [|c a IH]; [reflexivity|].
  cbn [forallb filter]. intros H. apply andb_true_iff in H as [Hc Ha].
  apply negb_true_iff in Hc. rewrite N.eqb_sym in Hc. rewrite Hc.
  now apply IH.
Qed.

(** X7: for a tag without line break, the block that
    [create_dual_cost_display] renders has no line break when the two costs
    are equal and exactly one otherwise. *)
Theorem block_is_one_or_two_lines config (d : CostInfo) (cost_line : str) :
  one_line (cost_tag config) = true ->
  create_dual_cost_display config d = inr cost_line ->
  line_breaks cost_line
  = if (invited_cost d =? effective_cost d)%Z then 0%nat else 1%nat.
Proof.
  intros Htag. unfold create_dual_cost_display.
  destruct (invited_count d) as [n|]; [|discriminate].
  destruct (effective_count d) as [m|]; [|discriminate].
  destruct (invited_cost d =? effective_cost d)%Z;
    intros H; injection H as <-;
    repeat (rewrite ?line_breaks_app, ?line_breaks_cons);
    rewrite ?(line_breaks_one_line _ Htag),
            ?(line_breaks_one_line _ (one_line_display _)),
            ?(line_breaks_one_line _ (one_line_str_of_int _));
    reflexivity.
Qed.

(** An instance in which the hypotheses hold. *)
Lemma block_is_one_or_two_lines_witness :
  line_breaks line_500_750
  = if (invited_cost (costs 750 500 3 2) =? effective_cost (costs 750 500 3 2))%Z
    then 0%nat else 1%nat.
Proof.
  apply (@block_is_one_or_two_lines default_config (costs 750 500 3 2)
           line_500_750); reflexivity.
Defined.

(** *** The pattern and the blocks it is meant to find *)

Lemma search_here (r : regex) (s : str) (n : nat) :
  match_at r s = Some n -> search r s = true.
Proof. intros H. destruct s; cbn [search]; now rewrite H. Qed.

Lemma search_cons (r : regex) (c : char) (s : str) :
  search r (c :: s)
  = match match_at r (c :: s) with Some _ => true | None => search r s end.
Proof. reflexivity. Qed.

(** X8: the pattern of [annotate_event] finds the blocks that are rendered:
    on a rendered cost line followed by the end of the text, or by a line
    break that no box character follows, it matches from the start of the
    line and exactly to its end, and [re.search] finds the line wherever it
    stands in a description. *)
Theorem pattern_matches_rendered_block config cost_info cost_line extended_cost
    (rest : str) :
  cost_line_of config cost_info = inr (cost_line, extended_cost) ->
  stop_here rest = true ->
  match_at (tag_pattern config) (cost_line ++ rest) = Some (length cost_line)
  /\ forall before, search (tag_pattern config) (before ++ cost_line ++ rest) = true.
Proof.
  intros Hline Hstop.
  destruct (cost_line_shape _ _ Hline) as (body & -> & Hbody).
  assert (E : strip_prefix (marker config) ((marker config ++ body) ++ rest)
              = Some (body ++ rest)).
  { apply strip_prefix_spec. now rewrite app_assoc. }
  assert (M : match_at (tag_pattern config) ((marker config ++ body) ++ rest)
              = Some (length (marker config ++ body))).
  { rewrite match_at_tag_pattern, E, Hbody, (scan_fixed _ Hstop).
    f_equal. rewrite !length_app. lia. }
  split; [exact M|].
  intros before. induction before as [|c before IH].
  - cbn [app]. apply (search_here _ _ M).
  - cbn [app]. rewrite search_cons, IH.
    now destruct (match_at (tag_pattern config) (c :: _)).
Qed.

(** An instance in which the hypotheses hold. *)
Lemma pattern_matches_rendered_block_witness :
  match_at (tag_pattern default_config) (line_500_750 ++ [NEWLINE] ++ lit "Agenda")
  = Some (length line_500_750)
  /\ forall before,
       search (tag_pattern default_config)
         (before ++ line_500_750 ++ [NEWLINE] ++ lit "Agenda") = true.
Proof.
  apply (@pattern_matches_rendered_block default_config
           (Dict (costs 750 500 3 2)) line_500_750 (lit "500")
           ([NEWLINE] ++ lit "Agenda")); reflexivity.
Defined.

(** *** The new description *)

Lemma marker_not_in_tag config : contains (marker config) (cost_tag config) = false.
Proof.
  destruct (contains (marker config) (cost_tag config)) eqn:E; [|reflexivity].
  apply contains_holds in E as (before & after & H).
  apply (f_equal (@length char)) in H. unfold marker in H.
  rewrite !length_app in H. cbn in H. lia.
Qed.

Lemma sub_inserts_line config line (s : str) :
  contains (marker config) s = true ->
  exists before after,
    sub (tag_pattern config) line s = before ++ line ++ after
    /\ contains (marker config) (before ++ cost_tag config) = false
    /\ exists rest, s = before ++ marker config ++ rest.
Proof.
  induction s as [|c s IH].
  - now rewrite contains_nil.
  - rewrite contains_cons. unfold startswith.
    destruct (strip_prefix (marker config) (c :: s)) as [rest|] eqn:E.
    + intros _. exists [], (sub (tag_pattern config) line (scan rest)).
      rewrite (sub_marker config line _ E).
      split; [reflexivity|]. split; [apply marker_not_in_tag|].
      exists rest. cbn [app]. now apply strip_prefix_spec.
    + cbn [orb]. intros H. destruct (IH H) as (before & after & Hs & Hb & rest & Hr).
      exists (c :: before), after. rewrite (sub_no_marker config line _ _ E).
      rewrite Hs. split; [reflexivity|]. split.
      * cbn [app]. rewrite contains_cons, Hb, orb_false_r. unfold startswith.
        destruct (strip_prefix (marker config) (c :: before ++ cost_tag config))
          as [x|] eqn:E'; [|reflexivity].
        apply strip_prefix_spec in E'.
        assert (X : strip_prefix (marker config) (c :: s)
                    = Some (x ++ lit ":" ++ rest)).
        { apply strip_prefix_spec. rewrite Hr. unfold marker at 1.
          rewrite <- app_assoc.
          change (c :: before ++ cost_tag config ++ lit ":" ++ rest)
            with ((c :: before) ++ cost_tag config ++ lit ":" ++ rest).
          rewrite app_assoc.
          change ((c :: before) ++ cost_tag config)
            with (c :: before ++ cost_tag config).
          rewrite E'. now rewrite <- app_assoc. }
        congruence.
      * exists rest. now rewrite Hr.
Qed.

(** X9: for a cost line without backslash, the new description contains
    the cost line in full, and what stands before it is the part of the old
    description before its first tag: nothing when the old description
    holds no tag, and otherwise the text up to the tag, in which no tag
    begins. *)
Theorem new_description_holds_the_line config (desc cost_line : str) :
  ~ In BACKSLASH cost_line ->
  exists before after,
    new_description config desc cost_line = before ++ cost_line ++ after
    /\ contains (marker config) (before ++ cost_tag config) = false
    /\ ((exists rest, desc = before ++ marker config ++ rest)
        \/ (contains (marker config) desc = false /\ before = [])).
Proof.
  intros _. unfold new_description. rewrite search_contains.
  destruct (contains (marker config) desc) eqn:Hc.
  - destruct (sub_inserts_line config cost_line desc Hc)
      as (before & after & Hs & Hb & rest & Hr).
    exists before, after. repeat split; auto. left. now exists rest.
  - exists []. destruct (strip_nonempty desc).
    + exists ([NEWLINE; NEWLINE] ++ desc). repeat split.
      * apply marker_not_in_tag.
      * now right.
    + exists []. repeat split.
      * now rewrite app_nil_r.
      * apply marker_not_in_tag.
      * now right.
Qed.

(** An instance in which the hypothesis holds. *)
Lemma new_description_holds_the_line_witness :
  exists before after,
    new_description default_config
      (lit "Agenda" ++ [NEWLINE] ++ line_500_750) line_250
    = before ++ line_250 ++ after
    /\ contains (marker default_config) (before ++ cost_tag default_config)
       = false
    /\ ((exists rest,
           lit "Agenda" ++ [NEWLINE] ++ line_500_750
           = before ++ marker default_config ++ rest)
        \/ (contains (marker default_config)
              (lit "Agenda" ++ [NEWLINE] ++ line_500_750) = false
            /\ before = [])).
Proof.
  apply (@new_description_holds_the_line default_config
           (lit "Agenda" ++ [NEWLINE] ++ line_500_750) line_250).
  vm_compute. intuition discriminate.
Defined.

(** *** Errors of annotate_event *)

(** X10: a skip result cannot be annotated: [annotate_event] raises
    [KeyError('invited_count')], or [KeyError('id')] when the event has no
    id, before any request is sent. *)
Theorem skip_result_cannot_be_annotated config cal calendar_id ev rate
    (target : Event) :
  skip_reason (compute_meeting_cost config ev rate) <> None ->
  annotate_event config cal calendar_id target
    (Dict (compute_meeting_cost config ev rate))
  = inl (KeyError (match id target with
                   | Some _ => lit "invited_count"
                   | None => lit "id"
                   end)).
Proof.
  intros H. unfold annotate_event.
  destruct (id target); [|reflexivity].
  destruct (compute_meeting_cost_decision config ev rate);
    try reflexivity. now contradiction H.
Qed.

(** An instance in which the hypotheses hold. *)
Lemma skip_result_cannot_be_annotated_witness :
  annotate_event default_config read_only_calendar ALICE alone
    (Dict (compute_meeting_cost default_config alone None))
  = inl (KeyError (match id alone with
                   | Some _ => lit "invited_count"
                   | None => lit "id"
                   end)).
Proof.
  apply (@skip_result_cannot_be_annotated default_config read_only_calendar
           ALICE alone None alone).
  vm_compute. discriminate.
Defined.


(** *** Pagination *)

(** X12: when every page but the last announces a next page, the pagination
    loop returns the events of all pages in page order, after those already
    collected, with the sync token of the last page; when a page raises, the
    exception is the result and no event collected so far is returned. *)
Theorem pagination_collects_every_page
    (pages : list (list Event * str * option str)) :
  Forall (fun page => truthy (snd (fst page)) = true) pages ->
  (forall items token sync next acc,
      token = None \/ token = Some [] ->
      paginate (more_pages pages (Response items token sync next)) acc
      = inr (acc ++ concat (map (fun page => fst (fst page)) pages) ++ items,
             sync))
  /\ (forall e acc, paginate (more_pages pages (Raises e)) acc = inl e).
Proof.
  induction 1 as [|page pages Hpage _ [IH1 IH2]]; split.
  - intros items token sync next acc [-> | ->]; cbn; now rewrite app_nil_r || reflexivity.
  - reflexivity.
  - intros items token sync next acc Htok. cbn [more_pages fold_right paginate].
    rewrite Hpage. fold (more_pages pages (Response items token sync next)).
    rewrite (IH1 _ _ _ _ _ Htok). cbn [map concat].
    now rewrite <- !app_assoc.
  - intros e acc. cbn [more_pages fold_right paginate]. rewrite Hpage.
    apply IH2.
Qed.

(** An instance in which the hypotheses hold. *)
Lemma pagination_collects_every_page_witness :
  (forall items token sync next acc,
      token = None \/ token = Some [] ->
      paginate (more_pages [([one_hour_two], lit "p2", None)]
                  (Response items token sync next)) acc
      = inr (acc ++ concat (map (fun page => fst (fst page))
                              [([one_hour_two], lit "p2", @None str)])
                 ++ items, sync))
  /\ (forall e acc,
        paginate (more_pages [([one_hour_two], lit "p2", None)] (Raises e)) acc
        = inl e).
Proof.
  apply (@pagination_collects_every_page [([one_hour_two], lit "p2", None)]).
  repeat constructor.
Defined.

(** *** The event loop *)

Lemma annotate_event_request config cal calendar_id ev cost_info request :
  annotate_event config cal calendar_id ev cost_info = inr request ->
  calendarId request = calendar_id /\ sendNotifications request = false
  /\ id ev = Some (eventId request).
Proof.
  unfold annotate_event. destruct (id ev) as [i|]; [|discriminate].
  destruct (cost_line_of config cost_info) as [e|[line ext]]; [discriminate|].
  destruct (events_patch cal _); [discriminate|].
  intros H. injection H as <-. now repeat split.
Qed.


(** *** The run *)

Lemma process_event_invariant config users cal email st ev :
  In email users -> run_invariant users st ->
  run_invariant users (process_event config cal email st ev).
Proof.
  intros Hin (Hp & Hs & Hf). unfold process_event.
  destruct (effective_cost _ <? 0)%Z.
  - repeat split; cbn; auto; lia.
  - destruct (annotate_event _ _ _ _ _) as [e|request] eqn:E.
    + repeat split; cbn; auto.
    + destruct (annotate_event_request _ _ _ _ _ E) as (Hc & Hn & _).
      repeat split; cbn [count_processed processed skipped patched]; auto.
      * rewrite length_app. cbn [length]. lia.
      * apply Forall_app. split; [exact Hf|]. constructor; [|constructor].
        rewrite Hc. now split.
Qed.

Lemma event_loop_invariant config users cal email items st :
  In email users -> run_invariant users st ->
  run_invariant users (fold_left (process_event config cal email) items st).
Proof.
  intros Hin. revert st. induction items as [|ev items IH]; intros st H;
    [exact H|]. cbn [fold_left]. apply IH. now apply process_event_invariant.
Qed.

Lemma process_user_invariant config w users st idx email :
  In email users -> run_invariant users st ->
  run_invariant users (fst (process_user config w st idx email)).
Proof.
  intros Hin H. unfold process_user.
  set (st0 := if (idx mod 20 =? 0)%nat then sleep st else st).
  assert (H0 : run_invariant users st0).
  { subst st0. destruct (idx mod 20 =? 0)%nat; exact H. }
  destruct (fetch_events _ _ _ _) as [requests fetched].
  assert (H1 : run_invariant users (record_listings st0 email requests))
    by exact H0.
  destruct fetched as [e|[[items|] token]]; cbn [fst]; try exact H1.
  pose proof (@event_loop_invariant config users
                (calendar_service w email) email items _ Hin H1) as H2.
  destruct token as [t|]; [destruct (truthy t)|]; cbn [fst]; exact H2.
Qed.

Lemma users_loop_invariant config w users idx rest st :
  incl rest users -> run_invariant users st ->
  run_invariant users (fst (users_loop config w idx rest st)).
Proof.
  revert idx st. induction rest as [|email rest IH]; intros idx st Hincl H;
    [exact H|]. cbn [users_loop].
  assert (Hin : In email users) by (apply Hincl; now left).
  pose proof (@process_user_invariant config w users st idx email Hin H) as H1.
  destruct (process_user config w st idx email) as [st' [e|]]; [exact H1|].
  apply IH; [|exact H1]. intros x Hx. apply Hincl. now right.
Qed.

(** X14: whatever the world, and also when the run ends by an exception,
    the state [cron] leaves behind has [processed] equal to the number of
    patches executed and [skipped] not negative, and every patch was sent
    without notifications to the calendar of one of the active users. *)
Theorem run_keeps_its_books config (w : World) :
  run_invariant (list_active_users w) (fst (cron config w)).
Proof.
  unfold cron.
  pose proof (@users_loop_invariant config w (list_active_users w) 0
                (list_active_users w) (initial_state w) (incl_refl _)) as H.
  destruct (users_loop config w 0 (list_active_users w) (initial_state w))
    as [st [e|]]; apply H; repeat split; cbn; auto; lia.
Qed.

Lemma event_loop_frame_all config cal email items st :
  tokens (fold_left (process_event config cal email) items st) = tokens st
  /\ listed (fold_left (process_event config cal email) items st) = listed st
  /\ pauses (fold_left (process_event config cal email) items st) = pauses st.
Proof.
  revert st. induction items as [|ev items IH]; intros st; cbn [fold_left];
    [now repeat split|].
  destruct (IH (process_event config cal email st ev)) as (-> & -> & ->).
  apply process_event_frame.
Qed.

(** X15: a user's turn never changes the sync token stored for another
    user; the user's own token is replaced by the token the fetch returned
    when there is a non-empty one, and is left as it was otherwise (fetch
    failed, or the listing ended without token). *)
Theorem sync_token_update config w st idx email :
  let st' := fst (process_user config w st idx email) in
  (forall other, str_eqb other email = false -> tokens st' other = tokens st other)
  /\ tokens st' email
     = match snd (fetch_events config (calendar_service w email) email
                    (get_sync_token st email)) with
       | inr (Some _, Some t) => if truthy t then Some t else tokens st email
       | _ => tokens st email
       end.
Proof.
  unfold process_user.
  set (st0 := if (idx mod 20 =? 0)%nat then sleep st else st).
  assert (H0 : get_sync_token st0 email = get_sync_token st email
               /\ tokens st0 = tokens st).
  { subst st0. destruct (idx mod 20 =? 0)%nat; now split. }
  destruct H0 as [-> Ht].
  destruct (fetch_events _ _ _ _) as [requests fetched]. cbn [snd].
  destruct fetched as [e|[[items|] token]]; cbn [fst];
    try (split; [intros other _|]; cbn; now rewrite Ht).
  set (st1 := record_listings st0 email requests).
  destruct (event_loop_frame_all config (calendar_service w email) email
              items st1) as (Htok & _ & _).
  assert (Ht1 : tokens st1 = tokens st) by exact Ht.
  destruct token as [t|]; [destruct (truthy t)|]; cbn [fst];
    try (split; [intros other _|]; now rewrite Htok, Ht1).
  split.
  - intros other Hne. cbn [save_sync_token tokens]. rewrite Hne.
    now rewrite Htok, Ht1.
  - cbn [save_sync_token tokens]. now rewrite str_eqb_refl.
Qed.

(** *** Pauses *)

Lemma process_user_pauses config w st idx email :
  pauses (fst (process_user config w st idx email))
  = (pauses st + if (idx mod 20 =? 0)%nat then 1 else 0)%nat.
Proof.
  unfold process_user.
  set (st0 := if (idx mod 20 =? 0)%nat then sleep st else st).
  assert (H0 : pauses st0
               = (pauses st + if (idx mod 20 =? 0)%nat then 1 else 0)%nat).
  { subst st0. destruct (idx mod 20 =? 0)%nat; cbn; lia. }
  destruct (fetch_events _ _ _ _) as [requests fetched].
  destruct fetched as [e|[[items|] token]]; cbn [fst]; try exact H0.
  set (st1 := record_listings st0 email requests).
  destruct (event_loop_frame_all config (calendar_service w email) email
              items st1) as (_ & _ & Hp).
  destruct token as [t|]; [destruct (truthy t)|]; cbn [fst];
    cbn [save_sync_token pauses]; rewrite Hp; exact H0.
Qed.

Lemma pause_step (idx : nat) :
  ((idx + 20) / 20 - (idx + 19) / 20
   = if (idx mod 20 =? 0) then 1 else 0)%nat.
Proof.
  pose proof (Nat.div_mod_eq idx 20) as D.
  pose proof (Nat.mod_upper_bound idx 20 ltac:(lia)) as B.
  destruct (Nat.eqb_spec (idx mod 20) 0) as [E|E].
  - rewrite E in D.
    replace (idx + 20)%nat with ((idx / 20 + 1) * 20)%nat by lia.
    replace (idx + 19)%nat with (19 + (idx / 20) * 20)%nat by lia.
    rewrite Nat.div_mul by lia. rewrite Nat.div_add by lia.
    cbn. lia.
  - replace (idx + 20)%nat with (idx mod 20 + (idx / 20 + 1) * 20)%nat by lia.
    replace (idx + 19)%nat
      with ((idx mod 20 - 1) + (idx / 20 + 1) * 20)%nat by lia.
    rewrite !Nat.div_add by lia.
    rewrite !Nat.div_small by lia. lia.
Qed.

Lemma users_loop_pauses config w idx users st st' :
  users_loop config w idx users st = (st', None) ->
  pauses st'
  = (pauses st + ((idx + length users + 19) / 20 - (idx + 19) / 20))%nat.
Proof.
  revert idx st. induction users as [|email users IH]; intros idx st;
    cbn [users_loop length].
  - intros H. injection H as <-. rewrite Nat.add_0_r. lia.
  - pose proof (process_user_pauses config w st idx email) as Hp.
    destruct (process_user config w st idx email) as [st1 [e|]];
      [discriminate|].
    intros H. rewrite (IH _ _ H). cbn [fst] in Hp. rewrite Hp.
    rewrite <- pause_step.
    assert (M1 : ((idx + 19) / 20 <= (idx + 20) / 20)%nat)
      by (apply Nat.Div0.div_le_mono; lia).
    assert (M2 : ((idx + 20) / 20 <= (S idx + length users + 19) / 20)%nat)
      by (apply Nat.Div0.div_le_mono; lia).
    replace (idx + S (length users) + 19)%nat
      with (S idx + length users + 19)%nat by lia.
    replace (S idx + 19)%nat with (idx + 20)%nat by lia.
    lia.
Qed.

(** X16: a run that ends with a report has paused once for every twenty
    users, starting with the first: [ceil(n / 20)] times for [n] users. *)
Theorem one_pause_every_twenty_users config (w : World) report :
  snd (cron config w) = inr report ->
  pauses (fst (cron config w)) = ((length (list_active_users w) + 19) / 20)%nat.
Proof.
  unfold cron.
  destruct (users_loop config w 0 (list_active_users w) (initial_state w))
    as [st [e|]] eqn:E; [discriminate|].
  intros _. cbn [fst]. rewrite (users_loop_pauses _ _ _ _ _ E). cbn. lia.
Qed.

(** An instance in which the hypotheses hold. *)
Lemma one_pause_every_twenty_users_witness :
  pauses (fst (cron default_config bob_only_world))
  = ((length (list_active_users bob_only_world) + 19) / 20)%nat.
Proof.
  apply (@one_pause_every_twenty_users default_config bob_only_world
           ({| report_processed := 1; report_skipped := 0 |}, 200%Z)).
  reflexivity.
Defined.

(** *** When the fall-back fails *)

(** X18: the fall-back is tried once only: when the windowed listing, too,
    answers with a stale-token error, [items] is [None], the event loop
    raises [TypeError] and the run ends with it at this user. *)
Theorem second_stale_answer_ends_the_turn config w st idx email e1 e2 :
  paginate (events_list (calendar_service w email) email
              (list_request config (get_sync_token st email))) [] = inl e1 ->
  is_stale_token_error e1 = true ->
  paginate (events_list (calendar_service w email) email
              (Windowed (window_days config))) [] = inl e2 ->
  is_stale_token_error e2 = true ->
  snd (process_user config w st idx email)
  = Some (TypeError (lit "'NoneType' object is not iterable"))
  /\ forall users,
       snd (users_loop config w idx (email :: users) st)
       = Some (TypeError (lit "'NoneType' object is not iterable")).
Proof.
  intros H1 S1 H2 S2.
  assert (Hu : snd (process_user config w st idx email)
               = Some (TypeError (lit "'NoneType' object is not iterable"))).
  { unfold process_user.
    set (st0 := if (idx mod 20 =? 0)%nat then sleep st else st).
    assert (H0 : get_sync_token st0 email = get_sync_token st email).
    { subst st0. now destruct (idx mod 20 =? 0)%nat. }
    rewrite H0. unfold fetch_events, list_changed_events.
    rewrite H1, S1. cbn [list_request]. rewrite H2, S2. reflexivity. }
  split; [exact Hu|]. intros users. cbn [users_loop].
  destruct (process_user config w st idx email) as [st' [e|]];
    cbn [snd] in *; [exact Hu|discriminate].
Qed.

(** An instance in which the hypotheses hold. *)
Lemma second_stale_answer_ends_the_turn_witness :
  snd (process_user default_config always_stale_world
         (initial_state always_stale_world) 0 ALICE)
  = Some (TypeError (lit "'NoneType' object is not iterable"))
  /\ forall users,
       snd (users_loop default_config always_stale_world 0 (ALICE :: users)
              (initial_state always_stale_world))
       = Some (TypeError (lit "'NoneType' object is not iterable")).
Proof.
  apply (@second_stale_answer_ends_the_turn default_config always_stale_world
           (initial_state always_stale_world) 0 ALICE
           (UpstreamError STALE_MESSAGE) (UpstreamError STALE_MESSAGE));
    reflexivity.
Defined.

(** *** list_active_users *)

Lemma collect_users_spec config d (acc : list str) (n : nat) requests users :
  UserService.collect_users config d acc n = (requests, inr users) ->
  exists k,
    requests = (n + k)%nat /\ (1 <= k)%nat
    /\ users = acc ++ emails_of_pages k d
    /\ (exists rest, directory_emails d = emails_of_pages k d ++ rest)
    /\ (directory_emails d = emails_of_pages k d
        \/ (max_users config <= Z.of_nat (length users))%Z)
    /\ (forall j, (1 <= j < k)%nat ->
          (Z.of_nat (length (acc ++ emails_of_pages j d)) < max_users config)%Z).
Proof.
  revert acc n requests users.
  induction d as [e|page token next IH]; intros acc n requests users;
    cbn [UserService.collect_users]; [discriminate|].
  set (more := match token with Some t => truthy t | None => false end).
  destruct (negb more
            || (max_users config
                <=? Z.of_nat (length (acc ++ UserService.primary_emails page)))%Z)
    eqn:Hstop.
  - intros H. injection H as <- <-. exists 1%nat.
    cbn [emails_of_pages]. rewrite app_nil_r.
    split; [lia|]. split; [lia|]. split; [reflexivity|].
    split; [cbn [directory_emails]; eauto|].
    split; [|intros j Hj; lia].
    apply orb_true_iff in Hstop as [Hm|Hm].
    + left. cbn [directory_emails]. subst more.
      destruct token as [t|]; [|now rewrite app_nil_r].
      apply negb_true_iff in Hm. rewrite Hm. now rewrite app_nil_r.
    + right. now apply Z.leb_le.
  - apply orb_false_iff in Hstop as [Hm Hlt].
    apply negb_false_iff in Hm. apply Z.leb_gt in Hlt.
    intros H. destruct (IH _ _ _ _ H) as (k & -> & Hk & -> & [rest Hr] & Hend & Hlow).
    exists (S k). cbn [emails_of_pages directory_emails].
    subst more. destruct token as [t|]; [|discriminate]. rewrite Hm.
    split; [lia|]. split; [lia|]. split; [now rewrite <- app_assoc|].
    split; [exists rest; now rewrite Hr, <- app_assoc|].
    split.
    + destruct Hend as [Hend|Hend]; [left; now rewrite Hend|right].
      exact Hend.
    + intros j Hj. destruct j as [|[|j]]; [lia| |].
      * cbn [emails_of_pages]. now rewrite app_nil_r.
      * cbn [emails_of_pages]. rewrite app_assoc.
        apply (Hlow (S j)). lia.
Qed.

Lemma firstn_prefix {A} (n : nat) (a rest : list A) :
  (n <= length a)%nat -> firstn n (a ++ rest) = firstn n a.
Proof.
  intros H. rewrite firstn_app. replace (n - length a)%nat with 0%nat by lia.
  now rewrite firstn_O, app_nil_r.
Qed.

(** X19: for a non-negative [max_users], the addresses [list_active_users]
    returns are the first [max_users] primary addresses of the directory in
    page order (entries without [primaryEmail] left out), so never more
    than [max_users]. *)
Theorem active_users_are_the_first_max_users config d requests users :
  (0 <= max_users config)%Z ->
  UserService.list_active_users config d = (requests, inr users) ->
  users = firstn (Z.to_nat (max_users config)) (directory_emails d)
  /\ (Z.of_nat (length users) <= max_users config)%Z.
Proof.
  intros Hmax. unfold UserService.list_active_users.
  destruct (UserService.collect_users config d [] 0) as [n [e|all]] eqn:E;
    [discriminate|].
  intros H. injection H as <- <-.
  destruct (collect_users_spec _ _ _ _ E) as (k & _ & _ & Hall & [rest Hr] & Hend & _).
  cbn [app] in Hall. unfold UserService.slice_to.
  destruct (Z.leb_spec 0 (max_users config)) as [_|]; [|lia].
  split.
  - destruct Hend as [Hend|Hend].
    + now rewrite Hend, Hall.
    + rewrite Hr, <- Hall. symmetry. apply firstn_prefix. lia.
  - rewrite length_firstn. lia.
Qed.

(** An instance in which the hypotheses hold. *)
Lemma active_users_are_the_first_max_users_witness :
  [ALICE; BOB]
  = firstn (Z.to_nat (max_users default_config))
      (directory_emails two_page_directory)
  /\ (Z.of_nat (length [ALICE; BOB]) <= max_users default_config)%Z.
Proof.
  apply (@active_users_are_the_first_max_users default_config
           two_page_directory 2 [ALICE; BOB]).
  - vm_compute. discriminate.
  - reflexivity.
Defined.

(** X20: [list_active_users] requests at least one page, and a further
    page only while the pages read so far hold fewer than [max_users]
    addresses. *)
Theorem active_users_paging_stops_at_max_users config d requests result :
  UserService.list_active_users config d = (requests, result) ->
  (1 <= requests)%nat
  /\ forall j, (1 <= j < requests)%nat ->
       (Z.of_nat (length (emails_of_pages j d)) < max_users config)%Z.
Proof.
  unfold UserService.list_active_users.
  assert (G : forall d acc n requests result,
    UserService.collect_users config d acc n = (requests, result) ->
    (n + 1 <= requests)%nat
    /\ forall j, (1 <= j < requests - n)%nat ->
         (Z.of_nat (length (acc ++ emails_of_pages j d)) < max_users config)%Z).
  { clear. induction d as [e|page token next IH]; intros acc n requests result;
      cbn [UserService.collect_users].
    - intros H. injection H as <- _. split; [lia|]. intros j Hj. lia.
    - destruct (negb _ || _) eqn:Hstop.
      + intros H. injection H as <- _. split; [lia|]. intros j Hj. lia.
      + apply orb_false_iff in Hstop as [_ Hlt]. apply Z.leb_gt in Hlt.
        intros H. destruct (IH _ _ _ _ H) as [Hn Hlow]. split; [lia|].
        intros j Hj. destruct j as [|[|j]]; [lia| |]; cbn [emails_of_pages].
        * now rewrite app_nil_r.
        * rewrite app_assoc. apply (Hlow (S j)). lia. }
  destruct (UserService.collect_users config d [] 0) as [n r] eqn:E.
  destruct (G _ _ _ _ _ E) as [Hn Hlow].
  intros H. assert (requests = n) by (destruct r; now injection H as <- _).
  subst n. split; [lia|]. intros j Hj. apply (Hlow j). lia.
Qed.

(** An instance in which the hypotheses hold. *)
Lemma active_users_paging_stops_at_max_users_witness :
  (1 <= 2)%nat
  /\ forall j, (1 <= j < 2)%nat ->
       (Z.of_nat (length (emails_of_pages j two_page_directory))
        < max_users default_config)%Z.
Proof.
  apply (@active_users_paging_stops_at_max_users default_config
           two_page_directory 2 (inr [ALICE; BOB])).
  reflexivity.
Defined.

(** X21: with [max_users] zero or negative a single page is requested; the
    result is empty for zero and, Python's slice counting from the end, the
    first page without its last [-max_users] addresses for a negative
    value. *)
Theorem active_users_with_no_room config page token next :
  (max_users config <= 0)%Z ->
  UserService.list_active_users config
    (UserService.DirectoryPage page token next)
  = (1%nat,
     inr (if (max_users config =? 0)%Z then []
          else firstn (length (UserService.primary_emails page)
                       - Z.to_nat (- max_users config))
                 (UserService.primary_emails page))).
Proof.
  intros Hmax. unfold UserService.list_active_users.
  cbn [UserService.collect_users app].
  assert (E : (max_users config
               <=? Z.of_nat (length (UserService.primary_emails page)))%Z = true)
    by (apply Z.leb_le; lia).
  rewrite E, orb_true_r. unfold UserService.slice_to.
  destruct (Z.eqb_spec (max_users config) 0) as [Z0|NZ].
  - now rewrite Z0.
  - destruct (Z.leb_spec 0 (max_users config)) as [H0|H0]; [lia|reflexivity].
Qed.

(** An instance in which the hypotheses hold. *)
Lemma active_users_with_no_room_witness :
  UserService.list_active_users no_room_config two_page_directory
  = (1%nat, inr []).
Proof.
  apply (@active_users_with_no_room no_room_config [Some ALICE; None]
           (Some (lit "p2"))
           (UserService.DirectoryPage [Some BOB] None
              (UserService.DirectoryRaises (UpstreamError [])))).
  vm_compute. discriminate.
Defined.

(** *** The integration tests' notion of an internal-only meeting *)

Lemma test_internal_is_internal config (a : Attendee) :
  no_upper (domain config) = true ->
  test_counts_as_internal config a = true ->
  has_email a = true /\ internal_email config (email_of a) = true.
Proof.
  intros Hd. unfold test_counts_as_internal, has_email, email_of, internal_email.
  destruct (email a) as [e|].
  - intros H. apply endswith_spec in H as [before ->]. split.
    + destruct before; reflexivity.
    + apply endswith_spec. exists (lower before). unfold lower.
      rewrite map_app. f_equal. apply lower_fixed.
      now rewrite no_upper_app, Hd.
  - intros H. apply endswith_spec in H as [before H].
    destruct before; discriminate.
Qed.

Lemma filter_all {A} (f : A -> bool) (l : list A) :
  forallb f l = true -> filter f l = l.
Proof.
  induction l as [|x l IH]; [reflexivity|]. simpl.
  intros H. apply andb_true_iff in H as [-> H]. now rewrite IH.
Qed.

(** X22: for a domain configured in ASCII characters and in lower case, a
    meeting that the integration tests select as internal-only (a non-empty
    attendee list, every address ending with ["@" + domain] as written) has
    all its attendees internal for [compute_meeting_cost], which therefore
    never skips it as [mixed_meeting] or [no_internal_attendees]. *)
Theorem test_selected_meeting_is_internal_only config ev rate :
  is_ascii (domain config) = true ->
  no_upper (domain config) = true ->
  attendees ev <> [] ->
  forallb (test_counts_as_internal config) (attendees ev) = true ->
  let r := compute_meeting_cost config ev rate in
  internal_attendees config ev = attendees ev
  /\ skip_reason r <> Some (lit "mixed_meeting")
  /\ skip_reason r <> Some (lit "no_internal_attendees").
Proof.
  intros _ Hd Hne Hall r.
  assert (Hboth : forall a, In a (attendees ev) ->
            has_email a = true /\ internal_email config (email_of a) = true).
  { intros a Ha. apply test_internal_is_internal; [exact Hd|].
    rewrite forallb_forall in Hall. now apply Hall. }
  assert (Hl : listed_attendees ev = attendees ev).
  { apply filter_all, forallb_forall. intros a Ha. now apply Hboth. }
  assert (Hi : internal_attendees config ev = attendees ev).
  { unfold internal_attendees. rewrite Hl.
    apply filter_all, forallb_forall. intros a Ha. now apply Hboth. }
  split; [exact Hi|]. subst r.
  destruct (compute_meeting_cost_decision config ev rate) as
    [H|H Hio Hn|H Hall' H0|H Hall' H1|H Hall' H2 H0|H Hall' H2 H1|H Hall' H2 H3];
    split; try discriminate.
  - exfalso. apply Hn. now rewrite Hi, Hl.
  - exfalso. rewrite Hi in H0. destruct (attendees ev); [now apply Hne|discriminate].
Qed.

(** An instance in which the hypotheses hold. *)
Lemma test_selected_meeting_is_internal_only_witness :
  let r := compute_meeting_cost default_config one_hour_two None in
  internal_attendees default_config one_hour_two = attendees one_hour_two
  /\ skip_reason r <> Some (lit "mixed_meeting")
  /\ skip_reason r <> Some (lit "no_internal_attendees").
Proof.
  apply (@test_selected_meeting_is_internal_only default_config one_hour_two None).
  - reflexivity.
  - reflexivity.
  - discriminate.
  - reflexivity.
Defined.

(** *** internal_email on ASCII text *)

(** X24: for an address and a configured domain of ASCII characters,
    [internal_email] answers [True] exactly when the domain holds no
    upper-case letter and the address ends, letter case ignored, with ["@"]
    followed by the domain: the address is lower-cased, the domain is taken
    as it is configured. *)
Theorem internal_email_characterised (config : Config) (email : str) :
  is_ascii email = true ->
  is_ascii (domain config) = true ->
  internal_email config email = true
  <-> no_upper (domain config) = true
      /\ ends_with_ignoring_case email (lit "@" ++ domain config).
Proof.
  intros _ _.
  unfold internal_email, ends_with_ignoring_case.
  rewrite endswith_spec. split.
  - intros [before H]. split.
    + assert (E : no_upper (lower email) = true) by apply no_upper_lower.
      rewrite H, no_upper_app, andb_true_iff in E. destruct E as [_ E].
      rewrite no_upper_app, andb_true_iff in E. tauto.
    + exists (firstn (length before) email), (skipn (length before) email).
      split; [now rewrite firstn_skipn|].
      apply eq_ignoring_case_lower.
      assert (E : no_upper (lit "@" ++ domain config) = true).
      { assert (E : no_upper (lower email) = true) by apply no_upper_lower.
        rewrite H, no_upper_app, andb_true_iff in E. tauto. }
      apply lower_fixed in E. rewrite E.
      unfold lower in *. rewrite <- skipn_map, H.
      rewrite skipn_app, skipn_all, Nat.sub_diag. reflexivity.
  - intros [Hd (before & tail & -> & Hci)].
    apply eq_ignoring_case_lower in Hci.
    assert (E : lower (lit "@" ++ domain config) = lit "@" ++ domain config).
    { apply lower_fixed. rewrite no_upper_app, Hd. reflexivity. }
    exists (lower before). unfold lower in *.
    now rewrite map_app, Hci, E.
Qed.

(** An instance in which the hypotheses hold. *)
Lemma internal_email_characterised_witness :
  internal_email default_config (lit "Carol@HGInsights.com") = true
  <-> no_upper (domain default_config) = true
      /\ ends_with_ignoring_case (lit "Carol@HGInsights.com")
           (lit "@" ++ domain default_config).
Proof.
  apply (@internal_email_characterised default_config (lit "Carol@HGInsights.com"));
    reflexivity.
Defined.

(** *** Qualifying results always render *)

(** X23: for a configured tag without backslash, a qualifying result always
    renders, so annotating with it fails only for an event without id or
    when the patch request raises; when it succeeds, the request targets
    the event's id and its three extended properties carry the decimal
    effective cost, invited cost and, as [meetingCost], the effective cost
    again. *)
Theorem qualifying_result_is_annotated_or_fails_outside config cal calendar_id
    ev rate (target : Event) :
  ~ In BACKSLASH (cost_tag config) ->
  skip_reason (compute_meeting_cost config ev rate) = None ->
  let r := compute_meeting_cost config ev rate in
  (exists cost_line, create_dual_cost_display config r = inr cost_line)
  /\ match annotate_event config cal calendar_id target (Dict r) with
     | inr request =>
         id target = Some (eventId request)
         /\ events_patch cal request = None
         /\ effectiveCost (body request) = str_of_int (effective_cost r)
         /\ invitedCost (body request) = str_of_int (invited_cost r)
         /\ meetingCost (body request) = str_of_int (effective_cost r)
     | inl e =>
         (id target = None /\ e = KeyError (lit "id"))
         \/ exists request, events_patch cal request = Some e
     end.
Proof.
  intros _ Hq r.
  assert (Hr : exists n m, invited_count r = Some n /\ effective_count r = Some m).
  { subst r. destruct (compute_meeting_cost_decision config ev rate);
      try discriminate Hq. cbn. eauto. }
  destruct Hr as (n & m & Hn & Hm).
  assert (Hline : exists cost_line, create_dual_cost_display config r = inr cost_line).
  { unfold create_dual_cost_display. rewrite Hn, Hm.
    destruct (invited_cost r =? effective_cost r)%Z; eauto. }
  split; [exact Hline|]. destruct Hline as [cost_line Hline].
  unfold annotate_event, cost_line_of. rewrite Hline.
  destruct (id target) as [i|]; [|left; now split].
  match goal with |- context [events_patch cal ?req] =>
    set (request := req); destruct (events_patch cal request) eqn:E end.
  - right. now exists request.
  - now repeat split.
Qed.

(** An instance in which the hypotheses hold. *)
Lemma qualifying_result_is_annotated_or_fails_outside_witness :
  let r := compute_meeting_cost default_config one_hour_two None in
  (exists cost_line, create_dual_cost_display default_config r = inr cost_line)
  /\ match annotate_event default_config read_only_calendar ALICE one_hour_two
             (Dict r) with
     | inr request =>
         id one_hour_two = Some (eventId request)
         /\ events_patch read_only_calendar request = None
         /\ effectiveCost (body request) = str_of_int (effective_cost r)
         /\ invitedCost (body request) = str_of_int (invited_cost r)
         /\ meetingCost (body request) = str_of_int (effective_cost r)
     | inl e =>
         (id one_hour_two = None /\ e = KeyError (lit "id"))
         \/ exists request, events_patch read_only_calendar request = Some e
     end.
Proof.
  apply (@qualifying_result_is_annotated_or_fails_outside default_config
           read_only_calendar ALICE one_hour_two None one_hour_two).
  - vm_compute. intuition discriminate.
  - reflexivity.
Defined.
